(** * Contact-intake service and contact client of the portfolio site

    A shallow embedding of
      - backend_contact/src/validators.js   (contactSchema, sanitizeInput, trimSafe)
      - backend_contact/src/rateLimit.js    (rateLimiterMiddleware)
      - backend_contact/src/server.js       (createApp, the POST /contact handler,
                                             the allowed origins)
      - backend_contact/src/logger.js       (logAt, logger)
      - the frontend contact client         (sendContactMessage)
      - frontend_portfolio/src/App.js       (the contact form: emailConfig,
                                             handleContactChange, handleContactSubmit)
    followed by the properties established about them.

    JavaScript strings are sequences of UTF-16 code units, so [length] is the
    JavaScript [.length] and [trim] can follow the ECMAScript definition of
    white space exactly. *)

From Stdlib Require Import ZArith NArith List String Ascii Bool Lia DecimalString.
From stdpp Require Import base gmap list.

Abbreviation jsstring := (list N) (only parsing).

(** ** JavaScript values *)

Module JS.

(** A string literal of the source, as code units. *)
Definition js (s : string) : jsstring :=
  map N_of_ascii (list_ascii_of_string s).

(** The values a parsed body, a sink result or a caught error can hold.  A
    number is carried as the text [String(n)] gives for it: printing and the
    two falsy numbers are all the code under study ever asks of a number. *)
#[warnings="-register-all"]
Inductive jsval : Type :=
| JUndefined
| JNull
| JBool (b : bool)
| JNum (repr : jsstring)
| JStr (s : jsstring)
| JArr (items : list jsval)
| JObj (props : list (jsstring * jsval)).

(** An object as the list of its own properties; a key is looked up from
    the front. *)
Abbreviation jsobj := (list (jsstring * jsval)) (only parsing).

Definition str_eqb (a b : jsstring) : bool :=
  bool_decide (a = b).

Fixpoint lookup_prop (k : jsstring) (o : jsobj) : jsval :=
  match o with
  | [] => JUndefined
  | (k', v) :: rest => if str_eqb k' k then v else lookup_prop k rest
  end.

(** [typeof v !== 'undefined'] *)
Definition is_defined (v : jsval) : bool :=
  match v with JUndefined => false | _ => true end.

(** [v ?? d] *)
Definition nullish_or (v d : jsval) : jsval :=
  match v with JUndefined | JNull => d | _ => v end.

(** [String(v)] *)
Fixpoint ToString (v : jsval) : jsstring :=
  match v with
  | JUndefined => js "undefined"
  | JNull => js "null"
  | JBool true => js "true"
  | JBool false => js "false"
  | JNum repr => repr
  | JStr s => s
  | JArr items =>
      (fix join (l : list jsval) : jsstring :=
         match l with
         | [] => []
         | x :: rest =>
             let sx := match x with
                       | JUndefined | JNull => []
                       | _ => ToString x
                       end in
             match rest with
             | [] => sx
             | _ :: _ => sx ++ 44%N :: join rest
             end
         end) items
  | JObj _ => js "[object Object]"
  end.

(** ToBoolean *)
Definition truthy (v : jsval) : bool :=
  match v with
  | JUndefined | JNull => false
  | JBool b => b
  | JNum repr => negb (str_eqb repr (js "0") || str_eqb repr (js "NaN"))
  | JStr s => negb (str_eqb s [])
  | JArr _ | JObj _ => true
  end.

(** [a || b] *)
Definition or_else (a b : jsval) : jsval :=
  if truthy a then a else b.

(** [v?.k]: undefined on a nullish receiver, the own property of an object,
    undefined on the remaining values (none of the keys read by the code,
    [messageId], [id], [message], [error], [detail], exists on a primitive
    or an array). *)
Definition get_opt (v : jsval) (k : jsstring) : jsval :=
  match v with
  | JObj props => lookup_prop k props
  | _ => JUndefined
  end.

(** WhiteSpace and LineTerminator code points of ECMAScript, the characters
    [String.prototype.trim] strips. *)
Definition is_ws (c : N) : bool :=
  ((9 <=? c) && (c <=? 13) || (c =? 32) || (c =? 160) || (c =? 5760)
   || (8192 <=? c) && (c <=? 8202) || (c =? 8232) || (c =? 8233)
   || (c =? 8239) || (c =? 8287) || (c =? 12288) || (c =? 65279))%N.

(** Dropping the leading, resp. trailing, characters of a class. *)
Fixpoint lstrip (p : N -> bool) (s : jsstring) : jsstring :=
  match s with
  | [] => []
  | c :: rest => if p c then lstrip p rest else s
  end.

Fixpoint rstrip (p : N -> bool) (s : jsstring) : jsstring :=
  match s with
  | [] => []
  | c :: rest =>
      match rstrip p rest with
      | [] => if p c then [] else [c]
      | r => c :: r
      end
  end.

(** [s.trim()] *)
Definition trim (s : jsstring) : jsstring :=
  rstrip is_ws (lstrip is_ws s).

Definition CR : N := 13.
Definition LF : N := 10.
Definition SPACE : N := 32.

Definition is_crlf (c : N) : bool :=
  ((c =? CR) || (c =? LF))%N.

(** [s.replace(/[\r\n]/g, ' ')] *)
Definition replace_crlf_space (s : jsstring) : jsstring :=
  map (fun c => if is_crlf c then SPACE else c) s.

(** [s.replace(/\r/g, '')] *)
Definition remove_cr (s : jsstring) : jsstring :=
  filter (fun c => c ≠ CR) s.

End JS.
Import JS.

(** ** validators.js *)

Module Validators.

(** [function trimSafe(v)] *)
Definition trimSafe (v : jsval) : jsstring :=
  trim (replace_crlf_space (ToString (nullish_or v (JStr [])))).

(** [function sanitizeInput(obj)] *)
Definition sanitizeInput (obj : jsobj) : jsobj :=
  [ (js "name", JStr (trimSafe (lookup_prop (js "name") obj)));
    (js "email", JStr (trimSafe (lookup_prop (js "email") obj)));
    (js "message",
      JStr (trim (remove_cr
        (ToString (nullish_or (lookup_prop (js "message") obj) (JStr [])))))) ].

(** *** The Joi schema

    [contactSchema] is a Joi object schema over three required string
    fields.  The schema is in validators.js; the engine that runs it is the
    package joi, a dependency that is not among the sources.  The engine is
    given for schemas built from [Joi.string()], [.min], [.max], [.email]
    and [.required], under the options [{ abortEarly: false, stripUnknown:
    true }] the handler passes.  The address grammar behind [.email({ tlds:
    { allow: false } })] is a parameter, [valid_email]. *)

Inductive joi_type : Type :=
| any_required | string_base | string_empty
| string_min | string_max | string_email.

Record joi_detail : Type := mkDetail {
  d_type : joi_type;
  d_path : jsstring;
  d_message : jsstring
}.

(** [Joi.string().min(a).max(b).email().required()] *)
Record string_schema : Type := mkStringSchema {
  s_min : option nat;
  s_max : option nat;
  s_email : bool
}.

Definition decimal (n : nat) : jsstring :=
  js (NilEmpty.string_of_uint (Nat.to_uint n)).

Definition QUOTE : N := 34.

(** The text of a detail, after the default templates of joi. *)
Definition joi_message (t : joi_type) (label : jsstring) (limit : nat) : jsstring :=
  QUOTE :: label ++ QUOTE ::
  match t with
  | any_required => js " is required"
  | string_base => js " must be a string"
  | string_empty => js " is not allowed to be empty"
  | string_min =>
      js " length must be at least " ++ decimal limit ++ js " characters long"
  | string_max =>
      js " length must be less than or equal to " ++ decimal limit
        ++ js " characters long"
  | string_email => js " must be a valid email"
  end.

Definition joi_error (t : joi_type) (label : jsstring) (limit : nat) : joi_detail :=
  mkDetail t label (joi_message t label limit).

(** Modelled from the spec: the rules of joi for a string, joi not being
    among the sources.  Length at least [min], at most [max], and the
    address grammar; with [abortEarly: false] all violations are collected,
    none stops the pass. *)
Definition string_rules (valid_email : jsstring -> bool)
    (sch : string_schema) (label s : jsstring) : list joi_detail :=
  (match s_min sch with
   | Some lo => if (length s <? lo)%nat then [joi_error string_min label lo] else []
   | None => []
   end) ++
  (match s_max sch with
   | Some hi => if (hi <? length s)%nat then [joi_error string_max label hi] else []
   | None => []
   end) ++
  (if s_email sch && negb (valid_email s)
   then [joi_error string_email label 0] else []).

(** Modelled from the spec: the validation by joi of one required string
    key, joi not being among the sources.  The key must be present, be a
    string and not be empty (an empty string has no length of 1 or more and
    is no address); a key that fails one of these reports that and nothing
    else; any other string goes through the rules. *)
Definition validate_string (valid_email : jsstring -> bool)
    (sch : string_schema) (label : jsstring) (v : jsval) : list joi_detail :=
  match v with
  | JUndefined => [joi_error any_required label 0]
  | JStr [] => [joi_error string_empty label 0]
  | JStr s => string_rules valid_email sch label s
  | _ => [joi_error string_base label 0]
  end.

(** [export const contactSchema = Joi.object({ name: ..., email: ..., message: ... })] *)
Definition contactSchema : list (jsstring * string_schema) :=
  [ (js "name", mkStringSchema (Some 1%nat) (Some 120%nat) false);
    (js "email", mkStringSchema None None true);
    (js "message", mkStringSchema (Some 1%nat) (Some 5000%nat) false) ].

Definition known_key (schema : list (jsstring * string_schema)) (k : jsstring) : bool :=
  existsb (fun '(k', _) => str_eqb k' k) schema.

(** Modelled from the spec: [schema.validate(obj, { abortEarly: false,
    stripUnknown: true })] of joi, which is not among the sources.  It
    returns the field-level errors of every key, in schema order ([error] is
    set when there is one), and the value with the unknown fields dropped;
    it never throws. *)
Definition validate (valid_email : jsstring -> bool)
    (schema : list (jsstring * string_schema)) (obj : jsobj)
    : list joi_detail * jsobj :=
  (flat_map (fun '(k, sch) => validate_string valid_email sch k (lookup_prop k obj))
            schema,
   List.filter (fun '(k, _) => known_key schema k) obj).

End Validators.
Import Validators.

(** ** Requests, responses and observable effects *)

Module Http.

(** What the code reads of an incoming request: the body, an object as the
    JSON and URL-encoded parsers of the application leave it; the address
    of the peer of the socket ([req.connection?.remoteAddress], absent once
    the socket is gone); and the [X-Forwarded-For] header. *)
Record request : Type := mkRequest {
  req_body : jsobj;
  remoteAddress : option jsstring;
  x_forwarded_for : option jsstring
}.

(** [res.status(code).json(body)] *)
Record response : Type := mkResponse {
  status : Z;
  body : jsval
}.

(** The effects of a request that leave the handler, in order: a call of
    the logger and a call of the notification sink [sendContactEmail]. *)
Inductive event : Type :=
| LogWarn (msg : jsstring)
| LogError (msg : jsstring) (meta : jsval)
| SinkCall (payload : jsobj).

Definition is_sink_call (e : event) : bool :=
  match e with SinkCall _ => true | _ => false end.

Definition sink_calls (tr : list event) : nat :=
  length (List.filter is_sink_call tr).

(** The sink is asynchronous and may fail: its promise resolves with a
    result or rejects with an error. *)
Inductive sink_outcome : Type :=
| Resolved (result : jsval)
| Rejected (err : jsval).

(** [x || dflt] for a string that may be missing, a setting of
    [process.env] or an address: missing and empty are falsy. *)
Definition str_or (x : option jsstring) (dflt : jsstring) : jsstring :=
  match x with
  | Some (c :: s) => c :: s
  | _ => dflt
  end.

(** The settings read from [process.env].  The two numeric settings hold the
    number the variable denotes when it is set to a non-empty numeral. *)
Record environment : Type := mkEnv {
  TRUST_PROXY : option jsstring;
  REACT_APP_TRUST_PROXY : option jsstring;
  HONEYPOT_FIELD : option jsstring;
  RATE_LIMIT_POINTS : option Z;
  RATE_LIMIT_DURATION : option Z
}.

Definition no_env : environment := mkEnv None None None None None.

(** [s.split(sep)] for a separator of one code unit. *)
Fixpoint split_on (sep : N) (s : jsstring) : list jsstring :=
  match s with
  | [] => [[]]
  | c :: rest =>
      if (c =? sep)%N then [] :: split_on sep rest
      else match split_on sep rest with
           | [] => [[c]]
           | seg :: segs => (c :: seg) :: segs
           end
  end.

Definition is_blank (c : N) : bool := (c =? 32)%N.

(** The addresses a forwarding header lists: its entries, separated by
    commas and stripped of blanks, the empty ones left out. *)
Definition forwarded_hops (header : jsstring) : list jsstring :=
  List.filter (fun a => negb (str_eqb a []))
    (map (fun seg => rstrip is_blank (lstrip is_blank seg)) (split_on 44 header)).

(** Modelled from the spec: [req.ip] of express, a dependency that is not
    among the sources, for the two values of the [trust proxy] setting that
    [createApp] produces.  When a proxy is trusted ([app.set('trust proxy',
    1)], one hop) the address is the one the proxy supplies in
    [X-Forwarded-For], its rightmost entry, and the address of the
    connection when the header lists none; otherwise it is the address of
    the direct connection. *)
Definition express_ip (trust : bool) (req : request) : option jsstring :=
  if trust then
    match last (forwarded_hops (str_or (x_forwarded_for req) [])) with
    | Some hop => Some hop
    | None => remoteAddress req
    end
  else remoteAddress req.

End Http.
Import Http.

(** ** rateLimit.js *)

Module RateLimit.

(** The record of a key: its counter and the end of its window. *)
Record rl_record : Type := mkRecord {
  value : Z;
  expiresAt : Z
}.

(** A [RateLimiterMemory]: its two options and one record per key.  Times
    are in milliseconds, [duration] in seconds. *)
Record limiter : Type := mkLimiter {
  points : Z;
  duration : Z;
  storage : gmap (list N) rl_record
}.

(** Modelled from the spec: the counting of [RateLimiterMemory], a class of
    the package rate-limiter-flexible that is not among the sources.
    Fixed-window counting: the counter of a key increments on every call and
    resets when the window has elapsed since its start; the window starts
    lazily, on the first call that finds none running (no record, or a
    record whose window is over), and that call is counted in it. *)
Definition incrby (l : limiter) (key : jsstring) (now : Z) : rl_record :=
  match storage l !! key with
  | Some r =>
      if (now <? expiresAt r)%Z then mkRecord (value r + 1) (expiresAt r)
      else mkRecord 1 (now + duration l * 1000)
  | None => mkRecord 1 (now + duration l * 1000)
  end.

(** Modelled from the spec: [limiter.consume(key)] of [RateLimiterMemory],
    which is not among the sources.  One call is counted; it is allowed
    ([true], the promise resolves) while the counter does not exceed
    [points], and denied ([false], the promise rejects) beyond. *)
Definition consume (l : limiter) (key : jsstring) (now : Z) : bool * limiter :=
  let r := incrby l key now in
  ((value r <=? points l)%Z,
   mkLimiter (points l) (duration l) (<[key := r]> (storage l))).

(** [const points = Number(process.env.RATE_LIMIT_POINTS || 5)],
    [const duration = Number(process.env.RATE_LIMIT_DURATION || 60)],
    [const limiter = new RateLimiterMemory({ points, duration })] *)
Definition new_limiter (env : environment) : limiter :=
  mkLimiter (default 5%Z (RATE_LIMIT_POINTS env))
            (default 60%Z (RATE_LIMIT_DURATION env))
            ∅.

(** [req.ip || req.headers['x-forwarded-for'] || req.connection?.remoteAddress
    || 'global'], [req.ip] being computed under the application's
    [trust proxy] setting. *)
Definition client_key (trust : bool) (req : request) : jsstring :=
  str_or (express_ip trust req)
    (str_or (x_forwarded_for req)
       (str_or (remoteAddress req) (js "global"))).

Definition rate_limited : response :=
  mkResponse 429 (JObj [(js "error", JStr (js "rate_limited"))]).

(** [export async function rateLimiterMiddleware(req, res, next)]: [next]
    is the rest of the route, run only when [consume] resolves. *)
Definition rateLimiterMiddleware (trust : bool) (l : limiter) (now : Z)
    (req : request) (next : request -> response * list event)
    : response * list event * limiter :=
  let key := client_key trust req in
  match consume l key now with
  | (true, l') => (next req, l')
  | (false, l') => (rate_limited, [], l')
  end.

End RateLimit.
Import RateLimit.

(** ** server.js *)

Module Server.

(** [String(process.env.TRUST_PROXY || process.env.REACT_APP_TRUST_PROXY
    || '1') === '1'] *)
Definition trustProxy (env : environment) : bool :=
  str_eqb (str_or (TRUST_PROXY env) (str_or (REACT_APP_TRUST_PROXY env) (js "1")))
          (js "1").

Definition accepted (id : jsval) : response :=
  mkResponse 202 (JObj [(js "success", JBool true); (js "id", id)]).

Definition detail_json (d : joi_detail) : jsval :=
  JObj [(js "message", JStr (d_message d)); (js "path", JArr [JStr (d_path d)])].

Definition validation_error (details : list joi_detail) : response :=
  mkResponse 400 (JObj [(js "error", JStr (js "validation_error"));
                        (js "details", JArr (map detail_json details))]).

Definition send_failed : response :=
  mkResponse 500 (JObj [(js "error", JStr (js "send_failed"))]).

(** The honeypot test of the handler:
    [typeof req.body?.[honeypotField] !== 'undefined' &&
     String(req.body[honeypotField]).trim() !== ''] *)
Definition honeypot_triggered (honeypotField : jsstring) (b : jsobj) : bool :=
  let v := lookup_prop honeypotField b in
  is_defined v && negb (str_eqb (trim (ToString v)) []).

(** The validation step of the handler: the 400 response when [error] is
    set, the stripped value otherwise. *)
Definition validation_step (valid_email : jsstring -> bool) (b : jsobj)
    : response + jsobj :=
  match validate valid_email contactSchema b with
  | ([], v) => inr v
  | (details, _) => inl (validation_error details)
  end.

(** The handler of [app.post('/contact', rateLimiterMiddleware, async (req,
    res) => ...)]. *)
Definition contact_handler (env : environment) (valid_email : jsstring -> bool)
    (sendContactEmail : jsobj -> request -> sink_outcome) (req : request)
    : response * list event :=
  let honeypotField := str_or (HONEYPOT_FIELD env) (js "website") in
  if honeypot_triggered honeypotField (req_body req) then
    (accepted JNull, [LogWarn (js "Honeypot triggered; dropping submission")])
  else
    match validation_step valid_email (req_body req) with
    | inl bad_request => (bad_request, [])
    | inr v =>
        let payload := sanitizeInput v in
        match sendContactEmail payload req with
        | Resolved sendResult =>
            (accepted (or_else (or_else (get_opt sendResult (js "messageId"))
                                        (get_opt sendResult (js "id")))
                               JNull),
             [SinkCall payload])
        | Rejected err =>
            (send_failed,
             [SinkCall payload;
              LogError (js "Failed to send contact email")
                       (JObj [(js "err", get_opt err (js "message"))])])
        end
    end.

(** The route [POST /contact]: the limiter, then the handler. *)
Definition post_contact (env : environment) (valid_email : jsstring -> bool)
    (sendContactEmail : jsobj -> request -> sink_outcome)
    (l : limiter) (now : Z) (req : request)
    : response * list event * limiter :=
  rateLimiterMiddleware (trustProxy env) l now req
    (contact_handler env valid_email sendContactEmail).

(** A run of the service: the requests in arrival order, each with its
    arrival time. *)
Fixpoint serve (env : environment) (valid_email : jsstring -> bool)
    (sendContactEmail : jsobj -> request -> sink_outcome)
    (l : limiter) (reqs : list (Z * request))
    : list (response * list event) * limiter :=
  match reqs with
  | [] => ([], l)
  | (now, req) :: rest =>
      let '(out, l') := post_contact env valid_email sendContactEmail l now req in
      let '(outs, l'') := serve env valid_email sendContactEmail l' rest in
      (out :: outs, l'')
  end.

End Server.
Import Server.

(** ** The contact client of the site *)

Module ContactClient.

(** How an evaluation ends: with a value, or with a thrown value (for an
    awaited promise: fulfilled, or rejected). *)
Inductive completion (A : Type) : Type :=
| Normal (a : A)
| Throw (e : jsval).
Arguments Normal {A} a.
Arguments Throw {A} e.

(** The arguments of a call of [fetch]; [f_body] is the object handed to
    [JSON.stringify]. *)
Record fetch_call : Type := mkFetchCall {
  f_url : jsstring;
  f_method : jsstring;
  f_body : jsobj
}.

(** What the client reads of a [Response]: [resp.ok], [resp.status],
    [resp.headers.get("content-type")] and how the promises of
    [resp.json()] and [resp.text()] settle. *)
Record fetch_response : Type := mkFetchResponse {
  resp_ok : bool;
  resp_status : nat;
  content_type : option jsstring;
  json_body : completion jsval;
  text_body : completion jsstring
}.

(** Computations that may throw and that record the network requests made. *)
Definition M (A : Type) : Type :=
  list fetch_call -> completion A * list fetch_call.

Definition ret {A} (a : A) : M A :=
  fun net => (Normal a, net).

Definition bind {A B} (m : M A) (k : A -> M B) : M B :=
  fun net =>
    match m net with
    | (Normal a, net') => k a net'
    | (Throw e, net') => (Throw e, net')
    end.

(** [try { m } catch (err) { handler err }] *)
Definition try_catch {A} (m : M A) (handler : jsval -> M A) : M A :=
  fun net =>
    match m net with
    | (Throw e, net') => handler e net'
    | done => done
    end.

(** [await fetch(...)], the network answering through [fetch]. *)
Definition await_fetch (fetch : fetch_call -> completion fetch_response)
    (c : fetch_call) : M fetch_response :=
  fun net => (fetch c, net ++ [c]).

(** [await promise.catch(() => dflt)] *)
Definition catch_default {A} (c : completion A) (dflt : A) : A :=
  match c with
  | Normal a => a
  | Throw _ => dflt
  end.

Notation "'let*' x ':=' m 'in' k" := (bind m (fun x => k))
  (at level 10, x name, m at level 100, k at level 200).

Fixpoint starts_with (prefix s : jsstring) : bool :=
  match prefix, s with
  | [], _ => true
  | p :: prefix', c :: s' => (p =? c)%N && starts_with prefix' s'
  | _ :: _, [] => false
  end.

(** [s.includes(needle)] *)
Fixpoint includes (needle s : jsstring) : bool :=
  starts_with needle s ||
  match s with
  | [] => false
  | _ :: s' => includes needle s'
  end.

Definition is_slash (c : N) : bool := (c =? 47)%N.

(** [a && b] *)
Definition and_then (a b : jsval) : jsval :=
  if truthy a then b else a.

Definition not_configured : jsval :=
  JObj [(js "ok", JBool false);
        (js "error", JStr (js
          "REACT_APP_CONTACT_API_URL is not set. Please configure it in your .env file."))].

(** [export async function sendContactMessage({ name, email, subject,
    message })]; [base] is [process.env.REACT_APP_CONTACT_API_URL] and
    [input] the object the parameter destructures. *)
Definition sendContactMessage (base : option jsstring)
    (fetch : fetch_call -> completion fetch_response) (input : jsobj) : M jsval :=
  match base with
  | None | Some [] => ret not_configured
  | Some base =>
      let url := rstrip is_slash base ++ js "/api/contact/" in
      try_catch
        (let* resp :=
           await_fetch fetch
             (mkFetchCall url (js "POST")
                [ (js "name", lookup_prop (js "name") input);
                  (js "email", lookup_prop (js "email") input);
                  (js "subject", lookup_prop (js "subject") input);
                  (js "message", lookup_prop (js "message") input) ]) in
         let contentType := str_or (content_type resp) [] in
         let data :=
           if includes (js "application/json") contentType
           then catch_default (json_body resp) JNull
           else or_else (JStr (catch_default (text_body resp) [])) JNull in
         if negb (resp_ok resp) then
           let msg :=
             or_else
               (and_then data
                  (or_else (or_else (get_opt data (js "error"))
                                    (get_opt data (js "detail")))
                           (get_opt data (js "message"))))
               (JStr (js "Request failed with status " ++ decimal (resp_status resp))) in
           ret (JObj [(js "ok", JBool false);
                      (js "error", JStr (ToString msg));
                      (js "data", data)])
         else
           ret (JObj [(js "ok", JBool true); (js "data", data)]))
        (fun err =>
           ret (JObj [(js "ok", JBool false);
                      (js "error", or_else (get_opt err (js "message"))
                                           (JStr (js "Network error")))]))
  end.

End ContactClient.
Import ContactClient.

(** * Vocabulary of the statements *)

(** A string [trim] leaves alone: no white space at either end. *)
Definition trimmed (s : jsstring) : Prop :=
  (forall c, head s = Some c -> is_ws c = false) /\
  (forall c, last s = Some c -> is_ws c = false).


(** The constraints of a submission, as the interface documents them:
    [name] a string of 1 to 120 code units, [email] a string of the address
    grammar, [message] a string of 1 to 5000 code units. *)
Definition length_within (lo hi : nat) (v : jsval) : bool :=
  match v with
  | JStr s => (lo <=? length s)%nat && (length s <=? hi)%nat
  | _ => false
  end.

Definition is_address (valid_email : jsstring -> bool) (v : jsval) : bool :=
  match v with
  | JStr s => valid_email s
  | _ => false
  end.

Definition name_ok (b : jsobj) : bool :=
  length_within 1 120 (lookup_prop (js "name") b).

Definition email_ok (valid_email : jsstring -> bool) (b : jsobj) : bool :=
  is_address valid_email (lookup_prop (js "email") b).

Definition message_ok (b : jsobj) : bool :=
  length_within 1 5000 (lookup_prop (js "message") b).

Definition well_formed (valid_email : jsstring -> bool) (b : jsobj) : Prop :=
  name_ok b = true /\ email_ok valid_email b = true /\ message_ok b = true.

(** The fields of a body that break their constraint, in schema order. *)
Definition violated_fields (valid_email : jsstring -> bool) (b : jsobj)
    : list jsstring :=
  (if name_ok b then [] else [js "name"]) ++
  (if email_ok valid_email b then [] else [js "email"]) ++
  (if message_ok b then [] else [js "message"]).

(** The honeypot field is present and not empty once trimmed. *)
Definition honeypot_filled (env : environment) (b : jsobj) : Prop :=
  let v := lookup_prop (str_or (HONEYPOT_FIELD env) (js "website")) b in
  is_defined v = true /\ trim (ToString v) ≠ [].

(** The limiter lets the request through. *)
Definition passes_limiter (env : environment) (l : limiter) (now : Z)
    (req : request) : bool :=
  fst (consume l (client_key (trustProxy env) req) now).


(** Modelled from the spec: [sendContactEmail] of email.js is not among the
    sources.  When no delivery channel is configured the sink is a no-op
    that reports success without sending (simulate mode); its result names
    no external identifier. *)
Definition simulate_sink (payload : jsobj) (req : request) : sink_outcome :=
  Resolved (JObj [(js "delivered", JBool true)]).



(** No window of [k] is running at [t]: the key was never seen, or the
    window of its record has elapsed. *)
Definition no_live_window (l : limiter) (k : jsstring) (t : Z) : Prop :=
  match storage l !! k with
  | None => True
  | Some r => (expiresAt r <= t)%Z
  end.

(** *** Sample inputs *)

(** A grammar to instantiate the parameter [valid_email] with: something,
    an at sign, something, and no blank. *)
Definition sample_grammar (s : jsstring) : bool :=
  match split_on 64 s with
  | [local; domain] =>
      negb (str_eqb local []) && negb (str_eqb domain [])
      && forallb (fun c => negb (is_ws c)) s
  | _ => false
  end.

Definition submission (name email message : jsstring) : jsobj :=
  [(js "name", JStr name); (js "email", JStr email); (js "message", JStr message)].

Definition jane : request :=
  mkRequest (submission (js "Jane") (js "jane@example.com") (js "Hello!"))
            (Some (js "198.51.100.4")) None.


Definition blank_name : request :=
  mkRequest (submission (js "   ") (js "jane@example.com") (js "Hello!"))
            (Some (js "198.51.100.4")) None.

(** The parts of the outcome of a request. *)
Definition response_of (out : response * list event * limiter) : response :=
  fst (fst out).

Definition events_of (out : response * list event * limiter) : list event :=
  snd (fst out).


(** A sink whose channel fails, with the text of the provider in the error. *)
Definition failing_sink (payload : jsobj) (req : request) : sink_outcome :=
  Rejected (JObj [(js "message", JStr (js "550 mailbox unavailable"))]).






(** A network that is down. *)
Definition network_down (c : fetch_call) : completion fetch_response :=
  Throw (JObj [(js "message", JStr (js "Failed to fetch"))]).

(** * The rest of the service and of the site *)

(** ** Object literals *)

Module Objects.

(** [k in o] for own properties. *)
Definition has_key (k : jsstring) (o : jsobj) : bool :=
  existsb (fun '(k', _) => str_eqb k' k) o.

(** [o[k] = v]: an existing property keeps its place, a new one goes last. *)
Fixpoint assign (o : jsobj) (k : jsstring) (v : jsval) : jsobj :=
  match o with
  | [] => [(k, v)]
  | (k', v') :: rest =>
      if str_eqb k' k then (k, v) :: rest else (k', v') :: assign rest k v
  end.

(** The properties of an object, each key once, in the order of the keys. *)
Fixpoint own_props_from (seen : list jsstring) (o : jsobj) : jsobj :=
  match o with
  | [] => []
  | (k, v) :: rest =>
      if existsb (str_eqb k) seen then own_props_from seen rest
      else (k, v) :: own_props_from (k :: seen) rest
  end.

Definition own_props (o : jsobj) : jsobj :=
  own_props_from [] o.

(** The own enumerable properties a spread copies: those of an object, the
    indexed elements of an array, none of any other value. *)
Definition enumerable (v : jsval) : jsobj :=
  match v with
  | JObj props => own_props props
  | JArr items => imap (fun i x => (decimal i, x)) items
  | _ => []
  end.

(** [{ ...base, ...extra }] for a [base] already built. *)
Definition spread (base extra : jsobj) : jsobj :=
  fold_left (fun o '(k, v) => assign o k v) extra base.

(** [typeof v === 'object'] *)
Definition is_object (v : jsval) : bool :=
  match v with
  | JNull | JArr _ | JObj _ => true
  | _ => false
  end.

End Objects.
Import Objects.

(** ** server.js: the allowed origins *)

Module Cors.

Record cors_environment : Type := mkCorsEnv {
  CORS_ORIGINS : option jsstring;
  REACT_APP_FRONTEND_URL : option jsstring;
  REACT_APP_BACKEND_URL : option jsstring
}.

(** [process.env.CORS_ORIGINS || process.env.REACT_APP_FRONTEND_URL ||
    process.env.REACT_APP_BACKEND_URL || ''] *)
Definition originsRaw (env : cors_environment) : jsstring :=
  str_or (CORS_ORIGINS env)
    (str_or (REACT_APP_FRONTEND_URL env)
       (str_or (REACT_APP_BACKEND_URL env) [])).

(** [originsRaw.split(',').map(s => s.trim()).filter(Boolean)] *)
Definition allowedOrigins (raw : jsstring) : list jsstring :=
  List.filter (fun s => negb (str_eqb s [])) (map trim (split_on 44 raw)).

(** The [origin] function given to [cors]: what it hands to its callback,
    the message of the error if there is one and the flag. *)
Definition origin_check (allowed : list jsstring) (origin : option jsstring)
    : option jsstring * bool :=
  match origin with
  | None | Some [] => (None, true)
  | Some o =>
      match allowed with
      | [] => (None, true)
      | _ :: _ =>
          let ok := existsb (fun a => str_eqb a o) allowed in
          (if ok then None else Some (js "Not allowed by CORS"), ok)
      end
  end.

End Cors.
Import Cors.

(** ** logger.js *)

Module Logger.

(** [const levels = ['error', 'warn', 'info', 'http', 'debug']] *)
Definition levels : list jsstring :=
  [js "error"; js "warn"; js "info"; js "http"; js "debug"].

(** [l.indexOf(x)] *)
Fixpoint indexOf (x : jsstring) (l : list jsstring) : Z :=
  match l with
  | [] => -1
  | y :: rest =>
      if str_eqb y x then 0
      else let i := indexOf x rest in
           if (i <? 0)%Z then -1 else (i + 1)%Z
  end.

Record log_environment : Type := mkLogEnv {
  LOG_LEVEL : option jsstring;
  REACT_APP_LOG_LEVEL : option jsstring
}.

(** [(process.env.LOG_LEVEL || process.env.REACT_APP_LOG_LEVEL ||
    'info').toLowerCase()]; [String.prototype.toLowerCase] is a parameter. *)
Definition envLevel (toLowerCase : jsstring -> jsstring) (env : log_environment)
    : jsstring :=
  toLowerCase (str_or (LOG_LEVEL env) (str_or (REACT_APP_LOG_LEVEL env) (js "info"))).

(** [Math.max(0, levels.indexOf(envLevel))] *)
Definition levelIdx (toLowerCase : jsstring -> jsstring) (env : log_environment) : Z :=
  Z.max 0 (indexOf (envLevel toLowerCase env) levels).

(** [function logAt(idx, level, msg, meta)]: the entry handed to
    [JSON.stringify] and written, if one is; [ts] is the time of the call
    and [threshold] the constant [levelIdx]. *)
Definition logAt (threshold : Z) (ts : jsstring) (idx : Z) (level msg : jsstring)
    (meta : jsval) : option jsobj :=
  if (idx >? threshold)%Z then None
  else Some (spread [(js "ts", JStr ts); (js "level", JStr level); (js "msg", JStr msg)]
               (if truthy meta && is_object meta then enumerable meta else [])).

(** The methods of [logger]. *)
Definition logger_error threshold ts msg meta := logAt threshold ts 0 (js "error") msg meta.
Definition logger_warn threshold ts msg meta := logAt threshold ts 1 (js "warn") msg meta.
Definition logger_info threshold ts msg meta := logAt threshold ts 2 (js "info") msg meta.
Definition logger_http threshold ts msg meta := logAt threshold ts 3 (js "http") msg meta.
Definition logger_debug threshold ts msg meta := logAt threshold ts 4 (js "debug") msg meta.



End Logger.
Import Logger.

(** ** App.js: the contact form *)

Module ContactForm.

Record emailjs_environment : Type := mkEmailEnv {
  REACT_APP_EMAILJS_PUBLIC_KEY : option jsstring;
  REACT_APP_EMAILJS_SERVICE_ID : option jsstring;
  REACT_APP_EMAILJS_TEMPLATE_ID : option jsstring
}.

(** A setting as a value: [undefined] when it is not set. *)
Definition setting (o : option jsstring) : jsval :=
  match o with
  | Some s => JStr s
  | None => JUndefined
  end.

(** [emailConfig.enabled] *)
Definition enabled (env : emailjs_environment) : bool :=
  truthy (setting (REACT_APP_EMAILJS_PUBLIC_KEY env))
  && truthy (setting (REACT_APP_EMAILJS_SERVICE_ID env))
  && truthy (setting (REACT_APP_EMAILJS_TEMPLATE_ID env)).

(** The initial [contactState]. *)
Definition initial_state : jsobj :=
  [ (js "name", JStr []); (js "email", JStr []); (js "message", JStr []);
    (js "status", JStr (js "idle")); (js "error", JStr []) ].

(** [handleContactChange]: the update [(s) => ({ ...s, [name]: value })]. *)
Definition handleContactChange (name value : jsstring) (s : jsobj) : jsobj :=
  assign (spread [] (own_props s)) name (JStr value).

(** The first update of [handleContactSubmit]:
    [(s) => ({ ...s, status: 'sending', error: '' })]. *)
Definition submit_begin (s : jsobj) : jsobj :=
  assign (assign (spread [] (own_props s)) (js "status") (JStr (js "sending")))
         (js "error") (JStr []).

(** The update of the timer of the simulated submission:
    [(s) => ({ ...s, status: 'success' })]. *)
Definition simulate_done (s : jsobj) : jsobj :=
  assign (spread [] (own_props s)) (js "status") (JStr (js "success")).

(** The state set after a delivered message. *)
Definition cleared : jsobj :=
  [ (js "name", JStr []); (js "email", JStr []); (js "message", JStr []);
    (js "status", JStr (js "success")); (js "error", JStr []) ].

(** The update of the [catch] block:
    [(s) => ({ ...s, status: 'error', error: err?.message || 'Unknown error' })]. *)
Definition submit_failed (err : jsval) (s : jsobj) : jsobj :=
  assign (assign (spread [] (own_props s)) (js "status") (JStr (js "error")))
         (js "error")
         (or_else (get_opt err (js "message")) (JStr (js "Unknown error"))).

(** [new Error(message)] *)
Definition new_Error (message : jsval) : jsval :=
  JObj [(js "message", JStr (ToString message))].

(** [throw e] and [await p] for a promise that has settled as [c]. *)
Definition throw {A} (e : jsval) : M A :=
  fun net => (Throw e, net).

Definition await {A} (c : completion A) : M A :=
  fun net => (c, net).

(** The request to the REST interface of EmailJS; [captured] is the
    [contactState] of the render the handler belongs to. *)
Definition emailjs_request (env : emailjs_environment) (captured : jsobj)
    : fetch_call :=
  mkFetchCall (js "https://api.emailjs.com/api/v1.0/email/send") (js "POST")
    [ (js "service_id", setting (REACT_APP_EMAILJS_SERVICE_ID env));
      (js "template_id", setting (REACT_APP_EMAILJS_TEMPLATE_ID env));
      (js "user_id", setting (REACT_APP_EMAILJS_PUBLIC_KEY env));
      (js "template_params",
        JObj [ (js "from_name", lookup_prop (js "name") captured);
               (js "from_email", lookup_prop (js "email") captured);
               (js "message", lookup_prop (js "message") captured) ]) ].

(** [async function handleContactSubmit(e)] after its first update: the
    update of [contactState] it ends with, made by the timer when nothing is
    configured and after the request otherwise. *)
Definition handleContactSubmit (env : emailjs_environment)
    (fetch : fetch_call -> completion fetch_response) (captured : jsobj)
    : M (jsobj -> jsobj) :=
  if negb (enabled env) then ret simulate_done
  else
    try_catch
      (let* resp := await_fetch fetch (emailjs_request env captured) in
       if negb (resp_ok resp) then
         let* text := await (text_body resp) in
         throw (new_Error (or_else (JStr text) (JStr (js "Failed to send message"))))
       else ret (fun _ : jsobj => cleared))
      (fun err => ret (submit_failed err)).

End ContactForm.
Import ContactForm.

(** ** Vocabulary of the further statements *)

(** [parts.join(',')] *)
Fixpoint join_comma (parts : list jsstring) : jsstring :=
  match parts with
  | [] => []
  | [p] => p
  | p :: rest => p ++ 44%N :: join_comma rest
  end.

(** A text of white space only. *)
Definition blank (s : jsstring) : Prop :=
  Forall (fun c => is_ws c = true) s.

(** An origin as one writes it in the list: not empty, no white space at
    its ends, no comma. *)
Definition plain_entry (a : jsstring) : Prop :=
  a <> [] /\ trimmed a /\ 44%N ∉ a.

(** An entry of the list with white space around it. *)
Definition padded (item : jsstring * jsstring * jsstring) : jsstring :=
  let '(before, a, after) := item in before ++ a ++ after.

Definition entry_of (item : jsstring * jsstring * jsstring) : jsstring :=
  let '(_, a, _) := item in a.

Definition padded_entry (item : jsstring * jsstring * jsstring) : Prop :=
  let '(before, a, after) := item in
  blank before /\ plain_entry a /\ blank after.

(** A setting that JavaScript takes for false. *)
Definition unset (o : option jsstring) : bool :=
  negb (truthy (setting o)).

(** ASCII lower case, to instantiate [toLowerCase] with. *)
Definition ascii_lower (s : jsstring) : jsstring :=
  map (fun c => if ((65 <=? c) && (c <=? 90))%N then (c + 32)%N else c) s.


(** A deployment whose [CORS_ORIGINS] holds blanks and a comma only, beside
    a configured front end. *)
Definition blank_cors : cors_environment :=
  mkCorsEnv (Some (js " , ")) (Some (js "https://site.example")) None.

(** The three fields every log entry starts from. *)
Definition entry_base (ts level msg : jsstring) : jsobj :=
  [(js "ts", JStr ts); (js "level", JStr level); (js "msg", JStr msg)].

Definition unset_log : log_environment := mkLogEnv None None.

(** Two bodies that agree on the fields the handler reads: the honeypot
    field and the three fields of the schema. *)
Definition same_submission (env : environment) (b1 b2 : jsobj) : Prop :=
  forall k,
    k ∈ [str_or (HONEYPOT_FIELD env) (js "website"); js "name"; js "email"; js "message"] ->
    lookup_prop k b1 = lookup_prop k b2.

(** The same submission as [jane], with fields the schema does not know. *)
Definition jane_with_extras : request :=
  mkRequest ((js "admin", JBool true) :: req_body jane ++ [(js "subject", JStr (js "Hi"))])
            (Some (js "198.51.100.4")) None.


(** A client that writes its own forwarding header, a new address each
    time, from one connection. *)
Definition spoofed (hop : jsstring) : request :=
  mkRequest (req_body jane) (Some (js "198.51.100.4")) (Some hop).

Definition spoofing_run : list (Z * request) :=
  map (fun hop => (0%Z, spoofed hop))
    [js "10.0.0.1"; js "10.0.0.2"; js "10.0.0.3"; js "10.0.0.4";
     js "10.0.0.5"; js "10.0.0.6"; js "10.0.0.7"].

(** The request of the contact client for a configured base address. *)
Definition contact_call (url : jsstring) (input : jsobj) : fetch_call :=
  mkFetchCall url (js "POST")
    [ (js "name", lookup_prop (js "name") input);
      (js "email", lookup_prop (js "email") input);
      (js "subject", lookup_prop (js "subject") input);
      (js "message", lookup_prop (js "message") input) ].





(** * Properties *)

(** The premises of the statements are decidable. *)
#[global] Instance well_formed_dec valid_email b : Decision (well_formed valid_email b).
Proof. unfold well_formed. apply _. Defined.

#[global] Instance honeypot_filled_dec env b : Decision (honeypot_filled env b).
Proof. unfold honeypot_filled. apply _. Defined.

(** ** Strings *)

Section Strip.
Variable p : N -> bool.

Lemma lstrip_head s c : head (lstrip p s) = Some c -> p c = false.
Proof.
  induction s as [|a s IH]; simpl; [discriminate|].
  destruct (p a) eqn:Ha; [exact IH|].
  simpl. intros [= <-]. exact Ha.
Qed.

Lemma lstrip_id s : (forall c, head s = Some c -> p c = false) -> lstrip p s = s.
Proof.
  destruct s as [|a s]; simpl; [reflexivity|].
  intros H. rewrite (H a eq_refl). reflexivity.
Qed.

Lemma rstrip_cons_keep a s : p a = false -> exists r, rstrip p (a :: s) = a :: r.
Proof.
  intros Ha. simpl. destruct (rstrip p s) as [|b r].
  - rewrite Ha. eauto.
  - eauto.
Qed.

Lemma rstrip_last s c : last (rstrip p s) = Some c -> p c = false.
Proof.
  induction s as [|a s IH]; simpl; [discriminate|].
  destruct (rstrip p s) as [|b r] eqn:E.
  - destruct (p a) eqn:Ha; simpl; [discriminate|].
    intros [= <-]. exact Ha.
  - intros H. apply IH. exact H.
Qed.

Lemma rstrip_id s : (forall c, last s = Some c -> p c = false) -> rstrip p s = s.
Proof.
  induction s as [|a s IH]; simpl; [reflexivity|].
  intros H. destruct s as [|b s].
  - simpl. rewrite (H a eq_refl). reflexivity.
  - rewrite IH; [reflexivity|]. intros c Hc. apply H. exact Hc.
Qed.

Lemma lstrip_incl s c : c ∈ lstrip p s -> c ∈ s.
Proof.
  induction s as [|a s IH]; simpl; [tauto|].
  destruct (p a); [|tauto]. intros H. right. auto.
Qed.

Lemma rstrip_incl s c : c ∈ rstrip p s -> c ∈ s.
Proof.
  revert c. induction s as [|a s IH]; simpl; intros c; [tauto|].
  destruct (rstrip p s) as [|b r].
  - destruct (p a); [intros H; inversion H|].
    intros H. apply list_elem_of_singleton in H. subst. left.
  - intros H. apply elem_of_cons in H as [->|H]; [left|right; auto].
Qed.
End Strip.

Lemma trim_trimmed s : trimmed (trim s).
Proof.
  unfold trim. split; intros c Hc.
  - pose proof (lstrip_head is_ws s) as Hh.
    destruct (lstrip is_ws s) as [|a t] eqn:E; [discriminate|].
    pose proof (Hh a eq_refl) as Ha.
    destruct (rstrip_cons_keep is_ws a t Ha) as [r Hr].
    rewrite Hr in Hc. simpl in Hc. congruence.
  - eapply rstrip_last; eauto.
Qed.

Lemma trim_id s : trimmed s -> trim s = s.
Proof.
  intros [Hh Hl]. unfold trim. rewrite (lstrip_id _ _ Hh). apply rstrip_id, Hl.
Qed.

Lemma trim_idempotent s : trim (trim s) = trim s.
Proof. apply trim_id, trim_trimmed. Qed.

Lemma trim_incl s c : c ∈ trim s -> c ∈ s.
Proof. unfold trim. intros H. eapply lstrip_incl, rstrip_incl, H. Qed.













(** The fields of a sanitized object. *)
Lemma sanitizeInput_fields obj :
  lookup_prop (js "name") (sanitizeInput obj)
    = JStr (trimSafe (lookup_prop (js "name") obj)) /\
  lookup_prop (js "email") (sanitizeInput obj)
    = JStr (trimSafe (lookup_prop (js "email") obj)) /\
  lookup_prop (js "message") (sanitizeInput obj)
    = JStr (trim (remove_cr
        (ToString (nullish_or (lookup_prop (js "message") obj) (JStr []))))).
Proof. repeat split. Qed.

(** ** The input sanitizer *)




(** ** Schema validation *)

Lemma str_eqb_eq a b : str_eqb a b = true <-> a = b.
Proof. unfold str_eqb. apply bool_decide_eq_true. Qed.

Lemma str_eqb_refl a : str_eqb a a = true.
Proof. apply str_eqb_eq. reflexivity. Qed.

Lemma lookup_prop_filter (keep : jsstring -> bool) k (obj : jsobj) :
  keep k = true ->
  lookup_prop k (List.filter (fun '(k', _) => keep k') obj) = lookup_prop k obj.
Proof.
  intros Hk. induction obj as [|[k' v] obj IH]; simpl; [reflexivity|].
  destruct (keep k') eqn:Hk'; simpl.
  - rewrite IH. reflexivity.
  - destruct (str_eqb k' k) eqn:E; [|exact IH].
    apply str_eqb_eq in E. congruence.
Qed.

(** [stripUnknown] does not change what [sanitizeInput] reads. *)
Lemma sanitizeInput_stripped valid_email b :
  sanitizeInput (snd (validate valid_email contactSchema b)) = sanitizeInput b.
Proof.
  unfold validate, sanitizeInput. cbn [snd].
  rewrite !lookup_prop_filter by reflexivity. reflexivity.
Qed.

Section Grammar.
Variable valid_email : jsstring -> bool.
Hypothesis valid_email_at : forall s, valid_email s = true -> 64%N ∈ s.

Lemma valid_email_nonempty : valid_email [] = false.
Proof.
  destruct (valid_email []) eqn:E; [|reflexivity].
  apply valid_email_at in E. inversion E.
Qed.

Lemma validate_string_bounds lo hi label v :
  (1 <= lo <= hi)%nat ->
  map d_path (validate_string valid_email
                (mkStringSchema (Some lo) (Some hi) false) label v)
  = if length_within lo hi v then [] else [label].
Proof.
  intros Hb. destruct v as [| | | |s| |]; try reflexivity.
  destruct s as [|c s].
  - simpl. destruct (Nat.leb_spec lo 0); [lia | reflexivity].
  - unfold validate_string, string_rules, length_within.
    cbn [s_min s_max s_email andb app].
    destruct (Nat.ltb_spec (length (c :: s)) lo);
      destruct (Nat.ltb_spec hi (length (c :: s)));
      destruct (Nat.leb_spec lo (length (c :: s)));
      destruct (Nat.leb_spec (length (c :: s)) hi); try lia; reflexivity.
Qed.

Lemma validate_string_email label v :
  map d_path (validate_string valid_email (mkStringSchema None None true) label v)
  = if is_address valid_email v then [] else [label].
Proof.
  destruct v as [| | | |s| |]; try reflexivity.
  destruct s as [|c s].
  - simpl. rewrite valid_email_nonempty. reflexivity.
  - unfold validate_string, string_rules, is_address. cbn [s_min s_max s_email andb app].
    destruct (valid_email (c :: s)); reflexivity.
Qed.

(** One detail for each field that breaks its constraint, in schema order. *)
Lemma validate_paths b :
  map d_path (fst (validate valid_email contactSchema b))
  = violated_fields valid_email b.
Proof.
  unfold validate, contactSchema, violated_fields, name_ok, email_ok, message_ok.
  cbn [fst flat_map]. rewrite !map_app, app_nil_r.
  rewrite !validate_string_bounds by lia. rewrite validate_string_email.
  reflexivity.
Qed.

Lemma violated_fields_nil b :
  violated_fields valid_email b = [] <-> well_formed valid_email b.
Proof.
  unfold violated_fields, well_formed.
  destruct (name_ok b), (email_ok valid_email b), (message_ok b);
    simpl; split; intros H; try discriminate; try tauto;
    destruct H as (? & ? & ?); discriminate.
Qed.


Lemma validation_step_spec b :
  validation_step valid_email b
  = if bool_decide (violated_fields valid_email b = [])
    then inr (snd (validate valid_email contactSchema b))
    else inl (validation_error (fst (validate valid_email contactSchema b))).
Proof.
  unfold validation_step. rewrite <- validate_paths.
  destruct (validate valid_email contactSchema b) as [[|d ds] v]; reflexivity.
Qed.

(** *** The handler, case by case *)

Lemma honeypot_triggered_filled env b :
  honeypot_triggered (str_or (HONEYPOT_FIELD env) (js "website")) b = true
  <-> honeypot_filled env b.
Proof.
  unfold honeypot_triggered, honeypot_filled.
  set (v := lookup_prop _ b). rewrite andb_true_iff, negb_true_iff.
  unfold str_eqb. rewrite bool_decide_eq_false.
  tauto.
Qed.

Variable env : environment.
Variable sendContactEmail : jsobj -> request -> sink_outcome.

Lemma handler_honeypot req :
  honeypot_filled env (req_body req) ->
  contact_handler env valid_email sendContactEmail req
  = (accepted JNull, [LogWarn (js "Honeypot triggered; dropping submission")]).
Proof.
  intros H. apply honeypot_triggered_filled in H.
  unfold contact_handler. rewrite H. reflexivity.
Qed.

Lemma handler_invalid req :
  ~ honeypot_filled env (req_body req) ->
  ~ well_formed valid_email (req_body req) ->
  contact_handler env valid_email sendContactEmail req
  = (validation_error (fst (validate valid_email contactSchema (req_body req))), []).
Proof.
  intros Hh Hw. unfold contact_handler.
  rewrite <- honeypot_triggered_filled in Hh. apply not_true_is_false in Hh.
  rewrite Hh, validation_step_spec.
  rewrite <- violated_fields_nil in Hw.
  rewrite bool_decide_eq_false_2 by exact Hw. reflexivity.
Qed.

Lemma handler_valid req :
  ~ honeypot_filled env (req_body req) ->
  well_formed valid_email (req_body req) ->
  contact_handler env valid_email sendContactEmail req
  = let payload := sanitizeInput (req_body req) in
    match sendContactEmail payload req with
    | Resolved sendResult =>
        (accepted (or_else (or_else (get_opt sendResult (js "messageId"))
                                    (get_opt sendResult (js "id"))) JNull),
         [SinkCall payload])
    | Rejected err =>
        (send_failed,
         [SinkCall payload;
          LogError (js "Failed to send contact email")
                   (JObj [(js "err", get_opt err (js "message"))])])
    end.
Proof.
  intros Hh Hw. unfold contact_handler.
  rewrite <- honeypot_triggered_filled in Hh. apply not_true_is_false in Hh.
  rewrite Hh, validation_step_spec.
  rewrite <- violated_fields_nil in Hw.
  rewrite bool_decide_eq_true_2 by exact Hw.
  rewrite sanitizeInput_stripped. reflexivity.
Qed.

Lemma post_contact_cases l now req :
  post_contact env valid_email sendContactEmail l now req
  = (if passes_limiter env l now req
     then contact_handler env valid_email sendContactEmail req
     else (rate_limited, []),
     snd (consume l (client_key (trustProxy env) req) now)).
Proof.
  unfold post_contact, rateLimiterMiddleware, passes_limiter.
  destruct (consume l _ now) as [[|] l']; reflexivity.
Qed.

End Grammar.

(** ** The sample inputs *)

Lemma split_on_absent sep s : sep ∉ s -> split_on sep s = [s].
Proof.
  induction s as [|c s IH]; intros H; [reflexivity|].
  simpl. destruct (N.eqb_spec c sep) as [->|_].
  - exfalso. apply H. left.
  - rewrite IH; [reflexivity|]. intros Hin. apply H. right. exact Hin.
Qed.

Lemma sample_grammar_at s : sample_grammar s = true -> 64%N ∈ s.
Proof.
  intros H. destruct (decide (64%N ∈ s)) as [Hin|Hout]; [exact Hin|].
  unfold sample_grammar in H. rewrite (split_on_absent _ _ Hout) in H.
  discriminate H.
Qed.


(** ** The request handler *)







(** C6.  When the call of the notification sink throws or rejects, the
    response is 500 with body [{ error: "send_failed" }], a constant that
    holds nothing of the error (its text goes to the log only), and the sink
    was invoked exactly once; no request invokes the sink more than once. *)
Theorem sink_failure_reported_once
    (valid_email : jsstring -> bool) (env : environment)
    (sendContactEmail : jsobj -> request -> sink_outcome)
    (l : limiter) (now : Z) (req : request) :
  let out := post_contact env valid_email sendContactEmail l now req in
  (sink_calls (events_of out) <= 1)%nat
  /\ forall payload err,
       In (SinkCall payload) (events_of out) ->
       sendContactEmail payload req = Rejected err ->
       response_of out
         = mkResponse 500 (JObj [(js "error", JStr (js "send_failed"))])
       /\ sink_calls (events_of out) = 1%nat
       /\ events_of out
          = [SinkCall payload;
             LogError (js "Failed to send contact email")
                      (JObj [(js "err", get_opt err (js "message"))])].
Proof.
  intros out. subst out.
  unfold post_contact, rateLimiterMiddleware, events_of, response_of.
  destruct (consume l _ now) as [[|] l']; cbn [fst snd];
    [|split; [unfold sink_calls; cbn; lia | intros ? ? []]].
  unfold contact_handler.
  destruct (honeypot_triggered _ _).
  { split; [unfold sink_calls; cbn; lia|]. intros ? ? [H|[]]. discriminate H. }
  destruct (validation_step valid_email (req_body req)) as [bad|v].
  { split; [unfold sink_calls; cbn; lia | intros ? ? []]. }
  destruct (sendContactEmail (sanitizeInput v) req) as [r|e] eqn:E; cbn [fst snd].
  - split; [unfold sink_calls; cbn; lia|]. intros payload err [H|[]] Hrej.
    injection H as <-. congruence.
  - split; [unfold sink_calls; cbn; lia|]. intros payload err [H|[H|[]]] Hrej; [|discriminate H].
    injection H as <-. rewrite E in Hrej. injection Hrej as <-.
    repeat split.
Qed.

Lemma sink_failure_reported_once_witness :
  let out := post_contact no_env sample_grammar failing_sink
               (new_limiter no_env) 0 jane in
  response_of out = send_failed /\ sink_calls (events_of out) = 1%nat.
Proof.
  intros out.
  destruct (proj2 (sink_failure_reported_once sample_grammar no_env failing_sink
                     (new_limiter no_env) 0 jane)
                  (sanitizeInput (req_body jane))
                  (JObj [(js "message", JStr (js "550 mailbox unavailable"))]))
    as (Hr & Hn & _).
  - vm_compute. left. reflexivity.
  - reflexivity.
  - split; [exact Hr | exact Hn].
Defined.

(** C4, as stated, fails: a name of three blanks passes validation, which
    reads the raw body, although the sanitized object, whose name is empty,
    violates the schema; the sink receives the empty name. *)
Lemma blank_name_is_validated_raw :
  ~ honeypot_filled no_env (req_body blank_name) /\
  fst (validate sample_grammar contactSchema (sanitizeInput (req_body blank_name)))
    <> [] /\
  contact_handler no_env sample_grammar simulate_sink blank_name
    = (accepted JNull,
       [SinkCall (submission [] (js "jane@example.com") (js "Hello!"))]).
Proof.
  split; [intros [H _]; vm_compute in H; discriminate H|].
  split; [vm_compute; discriminate | vm_compute; reflexivity].
Qed.

(** C4, amended.  The Schema Validator operates on the raw request body: the
    length and format constraints are checked against the values as
    received, and a violation is answered 400 with the details of the raw
    body.  The Input Sanitizer is applied after validation, to the validated
    value: what the sink receives is the trimmed, CR/LF-cleaned copy. *)
Theorem validation_reads_raw_body
    (valid_email : jsstring -> bool) (env : environment)
    (sendContactEmail : jsobj -> request -> sink_outcome) (req : request) :
  ~ honeypot_filled env (req_body req) ->
  let raw := req_body req in
  let out := contact_handler env valid_email sendContactEmail req in
  (fst (validate valid_email contactSchema raw) <> [] ->
   out = (validation_error (fst (validate valid_email contactSchema raw)), []))
  /\ (fst (validate valid_email contactSchema raw) = [] ->
      exists log,
        snd out = SinkCall (sanitizeInput raw) :: log
        /\ sink_calls (snd out) = 1%nat
        /\ lookup_prop (js "name") (sanitizeInput raw)
           = JStr (trimSafe (lookup_prop (js "name") raw))
        /\ lookup_prop (js "email") (sanitizeInput raw)
           = JStr (trimSafe (lookup_prop (js "email") raw))).
Proof.
  intros Hh raw out. subst raw out. unfold contact_handler.
  rewrite <- honeypot_triggered_filled in Hh. apply not_true_is_false in Hh.
  rewrite Hh. unfold validation_step.
  pose proof (sanitizeInput_stripped valid_email (req_body req)) as Hs.
  destruct (validate valid_email contactSchema (req_body req)) as [[|d ds] v];
    cbn [fst snd] in *.
  - split; [congruence|]. intros _. rewrite Hs.
    destruct (sendContactEmail _ req); eexists; (split; [reflexivity|]);
      (split; [reflexivity|]); split; apply sanitizeInput_fields.
  - split; [reflexivity | discriminate].
Qed.

Lemma validation_reads_raw_body_witness :
  ~ honeypot_filled no_env (req_body blank_name) /\
  exists log,
    snd (contact_handler no_env sample_grammar simulate_sink blank_name)
      = SinkCall (sanitizeInput (req_body blank_name)) :: log.
Proof.
  assert (Hh : ~ honeypot_filled no_env (req_body blank_name))
    by (intros [H _]; vm_compute in H; discriminate H).
  split; [exact Hh|].
  destruct (proj2 (validation_reads_raw_body sample_grammar no_env simulate_sink
                     blank_name Hh) ltac:(vm_compute; reflexivity))
    as (log & Hlog & _).
  exists log. exact Hlog.
Defined.

(** ** Validation errors *)



(** ** The client key *)

Lemma str_or_truthy c s d : str_or (Some (c :: s)) d = c :: s.
Proof. reflexivity. Qed.


Lemma forwarded_hop_nonempty header hop :
  last (forwarded_hops header) = Some hop -> hop <> [].
Proof.
  intros H. apply last_Some_elem_of in H. unfold forwarded_hops in H.
  apply list_elem_of_In, filter_In in H as [_ H].
  apply negb_true_iff in H. intros ->. discriminate H.
Qed.




(** ** The rate limiter *)

Lemma consume_settings l k t :
  points (snd (consume l k t)) = points l /\
  duration (snd (consume l k t)) = duration l.
Proof. split; reflexivity. Qed.

Lemma consume_other l k k' t :
  k' <> k -> storage (snd (consume l k' t)) !! k = storage l !! k.
Proof. intros H. unfold consume. cbn [snd storage]. apply lookup_insert_ne, H. Qed.


Lemma incrby_fresh l k t :
  no_live_window l k t -> incrby l k t = mkRecord 1 (t + duration l * 1000).
Proof.
  unfold no_live_window, incrby. destruct (storage l !! k) as [r|]; [|reflexivity].
  intros H. destruct (Z.ltb_spec t (expiresAt r)); [lia | reflexivity].
Qed.







(** ** The contact client *)



Example sendContactMessage_network_down :
  sendContactMessage (Some (js "https://api.example.org//")) network_down
    (submission (js "Jane") (js "jane@example.com") (js "Hello!")) []
  = (Normal (JObj [(js "ok", JBool false); (js "error", JStr (js "Failed to fetch"))]),
     [mkFetchCall (js "https://api.example.org/api/contact/") (js "POST")
        [ (js "name", JStr (js "Jane")); (js "email", JStr (js "jane@example.com"));
          (js "subject", JUndefined); (js "message", JStr (js "Hello!")) ]]).
Proof. vm_compute. reflexivity. Qed.

(** ** Scenarios *)

(** A genuine submission under simulate mode: 202 with [id: null], one call
    of the sink with the sanitized payload. *)
Example jane_is_accepted :
  fst (post_contact no_env sample_grammar simulate_sink (new_limiter no_env) 0 jane)
  = (accepted JNull,
     [SinkCall (submission (js "Jane") (js "jane@example.com") (js "Hello!"))]).
Proof. vm_compute. reflexivity. Qed.

(** A sink that returns an identifier: the response carries it. *)
Example jane_gets_the_identifier :
  fst (post_contact no_env sample_grammar
         (fun _ _ => Resolved (JObj [(js "messageId", JStr (js "m-1"))]))
         (new_limiter no_env) 0 jane)
  = (accepted (JStr (js "m-1")),
     [SinkCall (submission (js "Jane") (js "jane@example.com") (js "Hello!"))]).
Proof. vm_compute. reflexivity. Qed.

(** Line breaks in a name become blanks; a message keeps its line feeds and
    loses its carriage returns. *)
Example sanitizeInput_line_breaks :
  sanitizeInput [(js "name", JStr (js " Jane" ++ [13; 10]%N ++ js "Doe "));
                 (js "message", JStr (js "Hi," ++ [13; 10]%N ++ js "there" ++ [10]%N))]
  = submission (js "Jane  Doe") [] (js "Hi," ++ [10]%N ++ js "there").
Proof. vm_compute. reflexivity. Qed.

(** * Further properties *)

(** ** Stripping and splitting *)

Lemma lstrip_blank p s : Forall (fun c => p c = true) s -> lstrip p s = [].
Proof.
  induction 1 as [|c s Hc _ IH]; [reflexivity|]. simpl. rewrite Hc. exact IH.
Qed.

Lemma rstrip_blank p s : Forall (fun c => p c = true) s -> rstrip p s = [].
Proof.
  induction 1 as [|c s Hc _ IH]; [reflexivity|]. simpl. rewrite IH, Hc. reflexivity.
Qed.

Lemma lstrip_app_blank p pre s :
  Forall (fun c => p c = true) pre -> lstrip p (pre ++ s) = lstrip p s.
Proof.
  induction 1 as [|c pre Hc _ IH]; [reflexivity|]. simpl. rewrite Hc. exact IH.
Qed.

Lemma rstrip_app_blank p s post :
  Forall (fun c => p c = true) post -> rstrip p (s ++ post) = rstrip p s.
Proof.
  intros H. induction s as [|c s IH]; simpl.
  - apply rstrip_blank, H.
  - rewrite IH. reflexivity.
Qed.

Lemma lstrip_nil_blank p s : lstrip p s = [] -> Forall (fun c => p c = true) s.
Proof.
  induction s as [|c s IH]; simpl; [constructor|].
  destruct (p c) eqn:Hc; [|discriminate]. intros H. constructor; auto.
Qed.

Lemma rstrip_nil_blank p s : rstrip p s = [] -> Forall (fun c => p c = true) s.
Proof.
  induction s as [|c s IH]; simpl; [constructor|].
  destruct (rstrip p s) as [|b r]; [|discriminate].
  destruct (p c) eqn:Hc; [|discriminate]. intros _. constructor; auto.
Qed.

Lemma lstrip_length p s : (length (lstrip p s) <= length s)%nat.
Proof.
  induction s as [|c s IH]; simpl; [lia|]. destruct (p c); simpl; lia.
Qed.

Lemma rstrip_length p s : (length (rstrip p s) <= length s)%nat.
Proof.
  induction s as [|c s IH]; simpl; [lia|].
  destruct (rstrip p s) as [|b r]; [destruct (p c)|]; simpl in *; lia.
Qed.

Lemma lstrip_suffix p s : exists pre, s = pre ++ lstrip p s /\ Forall (fun c => p c = true) pre.
Proof.
  induction s as [|c s (pre & E & H)]; simpl.
  - exists []. split; [reflexivity | constructor].
  - destruct (p c) eqn:Hc.
    + exists (c :: pre). split; [simpl; congruence | constructor; assumption].
    + exists []. split; [reflexivity | constructor].
Qed.

Lemma trim_blank s : trim s = [] <-> blank s.
Proof.
  unfold trim, blank. split.
  - intros H. apply rstrip_nil_blank in H.
    destruct (lstrip_suffix is_ws s) as (pre & E & Hpre).
    rewrite E. apply Forall_app. split; assumption.
  - intros H. rewrite (lstrip_blank _ _ H). reflexivity.
Qed.

Lemma trim_length s : (length (trim s) <= length s)%nat.
Proof.
  unfold trim. pose proof (rstrip_length is_ws (lstrip is_ws s)).
  pose proof (lstrip_length is_ws s). lia.
Qed.

Lemma trim_padded before a after :
  blank before -> blank after -> trimmed a -> trim (before ++ a ++ after) = a.
Proof.
  intros Hb Ha Ht. unfold trim.
  rewrite (lstrip_app_blank _ _ _ Hb).
  destruct a as [|c a].
  - simpl. rewrite (lstrip_blank _ _ Ha). reflexivity.
  - rewrite (lstrip_id is_ws ((c :: a) ++ after)).
    + rewrite (rstrip_app_blank _ _ _ Ha). apply rstrip_id, Ht.
    + intros x Hx. apply (proj1 Ht). exact Hx.
Qed.

Lemma split_on_single sep s : sep ∉ s -> split_on sep s = [s].
Proof. apply split_on_absent. Qed.

Lemma split_on_app sep s rest :
  sep ∉ s -> split_on sep (s ++ sep :: rest) = s :: split_on sep rest.
Proof.
  induction s as [|c s IH]; intros H; simpl.
  - rewrite N.eqb_refl. reflexivity.
  - destruct (N.eqb_spec c sep) as [->|_].
    + exfalso. apply H. left.
    + rewrite IH; [reflexivity|]. intros Hin. apply H. right. exact Hin.
Qed.

Lemma split_on_join parts :
  parts <> [] -> Forall (fun p => 44%N ∉ p) parts ->
  split_on 44 (join_comma parts) = parts.
Proof.
  induction parts as [|p parts IH]; intros Hne Hall; [contradiction|].
  apply Forall_cons in Hall as [Hp Hall].
  destruct parts as [|q parts].
  - simpl. apply split_on_absent, Hp.
  - change (join_comma (p :: q :: parts)) with (p ++ 44%N :: join_comma (q :: parts)).
    rewrite split_on_app by exact Hp. rewrite IH; [reflexivity | discriminate | exact Hall].
Qed.

Lemma split_on_pieces sep s piece c :
  piece ∈ split_on sep s -> c ∈ piece -> c ∈ s /\ c <> sep.
Proof.
  revert piece. induction s as [|a s IH]; intros piece Hp Hc; simpl in Hp.
  - apply list_elem_of_singleton in Hp. subst. inversion Hc.
  - destruct (N.eqb_spec a sep) as [->|Hne].
    + apply elem_of_cons in Hp as [->|Hp]; [inversion Hc|].
      destruct (IH _ Hp Hc). split; [right|]; assumption.
    + destruct (split_on sep s) as [|seg segs] eqn:E.
      * apply list_elem_of_singleton in Hp. subst.
        apply list_elem_of_singleton in Hc. subst. split; [left | exact Hne].
      * apply elem_of_cons in Hp as [->|Hp].
        -- apply elem_of_cons in Hc as [->|Hc]; [split; [left | exact Hne]|].
           destruct (IH seg ltac:(left) Hc). split; [right|]; assumption.
        -- destruct (IH piece ltac:(right; exact Hp) Hc). split; [right|]; assumption.
Qed.

(** ** The allowed origins *)

Lemma allowedOrigins_elem raw a :
  a ∈ allowedOrigins raw <-> a <> [] /\ exists piece, piece ∈ split_on 44 raw /\ a = trim piece.
Proof.
  unfold allowedOrigins. rewrite list_elem_of_In, filter_In, <- list_elem_of_In.
  rewrite list_elem_of_fmap, negb_true_iff. unfold str_eqb. rewrite bool_decide_eq_false.
  split.
  - intros [(piece & -> & Hp) Hne]. split; [exact Hne|]. exists piece. split; [exact Hp | reflexivity].
  - intros [Hne (piece & Hp & ->)]. split; [|exact Hne]. exists piece. split; [reflexivity | exact Hp].
Qed.

Lemma allowedOrigins_plain raw a : a ∈ allowedOrigins raw -> plain_entry a.
Proof.
  intros H. apply allowedOrigins_elem in H as [Hne (piece & Hp & ->)].
  split; [exact Hne|]. split; [apply trim_trimmed|].
  intros Hc. apply trim_incl in Hc.
  destruct (split_on_pieces _ _ _ _ Hp Hc) as [_ Hneq]. apply Hneq. reflexivity.
Qed.

(** X1.  Every entry of [allowedOrigins] is a plain origin: it is not
    empty, has no white space at its ends and holds no comma, whatever the
    configured text. *)
Theorem allowedOrigins_entries (raw a : jsstring) :
  a ∈ allowedOrigins raw -> plain_entry a.
Proof. apply allowedOrigins_plain. Qed.

Lemma allowedOrigins_entries_witness :
  js "https://a.example" ∈ allowedOrigins (js " https://a.example ,https://b.example")
  /\ plain_entry (js "https://a.example").
Proof.
  assert (H : js "https://a.example"
              ∈ allowedOrigins (js " https://a.example ,https://b.example"))
    by (vm_compute; left).
  split; [exact H|]. exact (allowedOrigins_entries _ _ H).
Defined.

Lemma blank_no_comma s : blank s -> 44%N ∉ s.
Proof.
  intros H Hin. unfold blank in H. rewrite Forall_forall in H.
  specialize (H _ Hin). discriminate H.
Qed.

(** X2.  Reading back a list: the entries of a configured text made of
    plain origins, separated by commas and with any white space around
    them, are exactly those origins, in order. *)
Theorem allowedOrigins_round_trip (items : list (jsstring * jsstring * jsstring)) :
  Forall padded_entry items ->
  allowedOrigins (join_comma (map padded items)) = map entry_of items.
Proof.
  intros Hall. destruct items as [|item items]; [reflexivity|].
  unfold allowedOrigins. rewrite split_on_join.
  - induction Hall as [|[[before a] after] rest (Hb & (Hne & Ht & Hc) & Ha) _ IH];
      [reflexivity|].
    cbn [map List.filter padded entry_of]. rewrite (trim_padded _ _ _ Hb Ha Ht).
    destruct a as [|c a]; [contradiction|]. cbn. f_equal. exact IH.
  - discriminate.
  - clear -Hall. induction Hall as [|[[before a] after] rest (Hb & (Hne & Ht & Hc) & Ha) _ IH];
      constructor; [|exact IH].
    cbn [padded]. intros Hin.
    apply elem_of_app in Hin as [Hin|Hin]; [exact (blank_no_comma _ Hb Hin)|].
    apply elem_of_app in Hin as [Hin|Hin]; [exact (Hc Hin) | exact (blank_no_comma _ Ha Hin)].
Qed.

Lemma allowedOrigins_round_trip_witness :
  allowedOrigins (js " https://a.example ,https://b.example")
  = [js "https://a.example"; js "https://b.example"].
Proof.
  apply (allowedOrigins_round_trip
           [ (js " ", js "https://a.example", js " ");
             ([], js "https://b.example", []) ]).
  repeat constructor; try (intros [=]); try (intros c [= <-]; reflexivity);
    try (vm_compute; intros H; repeat (apply elem_of_cons in H as [H|H]; [discriminate H|]);
         inversion H).
Defined.

Lemma allowedOrigins_blank raw :
  Forall (fun c => is_ws c = true \/ c = 44%N) raw -> allowedOrigins raw = [].
Proof.
  intros H. destruct (allowedOrigins raw) as [|a rest] eqn:E; [reflexivity|].
  assert (Ha : a ∈ allowedOrigins raw) by (rewrite E; left).
  apply allowedOrigins_elem in Ha as [Hne (piece & Hp & ->)].
  exfalso. apply Hne. apply trim_blank. unfold blank. apply Forall_forall.
  intros c Hc. destruct (split_on_pieces _ _ _ _ Hp Hc) as [Hin Hneq].
  rewrite Forall_forall in H. destruct (H _ Hin) as [Hw | ->]; [exact Hw | contradiction].
Qed.

(** X3.  The policy is open when nothing usable is configured: if the
    configured text holds only white space and commas (in particular if it
    is empty), every origin is accepted without error.  [CORS_ORIGINS], once
    non-empty, is the configured text whatever the two other settings hold:
    a [CORS_ORIGINS] of blanks opens the policy even beside a configured
    front-end address. *)
Theorem cors_open_without_entries (env : cors_environment) (origin : option jsstring) :
  Forall (fun c => is_ws c = true \/ c = 44%N) (originsRaw env) ->
  origin_check (allowedOrigins (originsRaw env)) origin = (None, true)
  /\ (forall c s, CORS_ORIGINS env = Some (c :: s) -> originsRaw env = c :: s).
Proof.
  intros H. split.
  - rewrite (allowedOrigins_blank _ H). destruct origin as [[|c o]|]; reflexivity.
  - intros c s E. unfold originsRaw. rewrite E. reflexivity.
Qed.

Lemma cors_open_without_entries_witness :
  origin_check (allowedOrigins (originsRaw blank_cors)) (Some (js "https://evil.example"))
  = (None, true).
Proof.
  apply (cors_open_without_entries blank_cors (Some (js "https://evil.example"))).
  change (originsRaw blank_cors) with [32; 44; 32]%N.
  constructor; [left; reflexivity|]. constructor; [right; reflexivity|].
  constructor; [left; reflexivity|]. constructor.
Defined.

(** X4.  With at least one entry configured, a request that names an origin
    is accepted exactly when that origin is, code unit for code unit, one of
    the entries; the callback gets an error exactly when the origin is
    refused; and an accepted origin is always a plain one (an origin with
    white space at an end, or with a comma, is refused).  A request that
    names no origin is accepted whatever the entries. *)
Theorem cors_listed_origins_only (raw : jsstring) (o : jsstring) :
  allowedOrigins raw <> [] ->
  o <> [] ->
  let result := origin_check (allowedOrigins raw) (Some o) in
  (snd result = true <-> o ∈ allowedOrigins raw)
  /\ (fst result = None <-> snd result = true)
  /\ (snd result = true -> plain_entry o)
  /\ origin_check (allowedOrigins raw) None = (None, true)
  /\ origin_check (allowedOrigins raw) (Some []) = (None, true).
Proof.
  intros Hne Ho result. subst result.
  assert (Hmem : existsb (fun a => str_eqb a o) (allowedOrigins raw) = true
                 <-> o ∈ allowedOrigins raw).
  { rewrite existsb_exists. split.
    - intros (a & Ha & E). apply str_eqb_eq in E. subst. apply list_elem_of_In, Ha.
    - intros H. exists o. split; [apply list_elem_of_In, H | apply str_eqb_refl]. }
  destruct o as [|c o]; [contradiction|].
  destruct (allowedOrigins raw) as [|a rest] eqn:E; [contradiction|].
  cbn [origin_check fst snd].
  split; [exact Hmem|]. split.
  - destruct (existsb _ (a :: rest)); split; intros H; try reflexivity; discriminate H.
  - split; [|split; reflexivity].
    intros H. apply Hmem in H. rewrite <- E in H.
    exact (allowedOrigins_plain _ _ H).
Qed.

Lemma cors_listed_origins_only_witness :
  snd (origin_check (allowedOrigins (js "https://a.example, https://b.example"))
         (Some (js "https://b.example"))) = true
  /\ snd (origin_check (allowedOrigins (js "https://a.example, https://b.example"))
            (Some (js "https://B.example"))) = false.
Proof.
  split.
  - apply (proj1 (cors_listed_origins_only (js "https://a.example, https://b.example")
                    (js "https://b.example")
                    ltac:(vm_compute; discriminate) ltac:(vm_compute; discriminate))).
    vm_compute. right; left.
  - vm_compute. reflexivity.
Defined.

(** ** Object literals *)

Lemma str_eqb_neq a b : str_eqb a b = false <-> a <> b.
Proof. unfold str_eqb. apply bool_decide_eq_false. Qed.

Lemma lookup_prop_absent k o : has_key k o = false -> lookup_prop k o = JUndefined.
Proof.
  induction o as [|[k' v] o IH]; [reflexivity|]. simpl.
  destruct (str_eqb k' k); [discriminate | exact IH].
Qed.

Lemma lookup_assign_eq o k v : lookup_prop k (assign o k v) = v.
Proof.
  induction o as [|[k' v'] o IH]; simpl.
  - rewrite str_eqb_refl. reflexivity.
  - destruct (str_eqb k' k) eqn:E; simpl.
    + rewrite str_eqb_refl. reflexivity.
    + rewrite E. exact IH.
Qed.

Lemma lookup_assign_ne o k v k' :
  k' <> k -> lookup_prop k' (assign o k v) = lookup_prop k' o.
Proof.
  intros Hne. induction o as [|[k0 v0] o IH]; simpl.
  - apply str_eqb_neq in Hne. destruct (str_eqb k k') eqn:E; [|reflexivity].
    apply str_eqb_eq in E. subst. rewrite str_eqb_refl in Hne. discriminate.
  - destruct (str_eqb k0 k) eqn:E; simpl.
    + apply str_eqb_eq in E. subst k0.
      destruct (str_eqb k k') eqn:E'; [|reflexivity].
      apply str_eqb_eq in E'. congruence.
    + rewrite IH. reflexivity.
Qed.

Lemma has_key_assign o k v k' :
  has_key k' (assign o k v) = str_eqb k k' || has_key k' o.
Proof.
  unfold has_key. induction o as [|[k0 v0] o IH]; simpl.
  - rewrite orb_false_r. reflexivity.
  - destruct (str_eqb k0 k) eqn:E; simpl.
    + apply str_eqb_eq in E. subst. destruct (str_eqb k k'); reflexivity.
    + rewrite IH. destruct (str_eqb k0 k'), (str_eqb k k'); reflexivity.
Qed.

(** A spread of properties with distinct keys: the spread property wins. *)
Lemma lookup_spread extra : forall base k,
  NoDup (map fst extra) ->
  lookup_prop k (spread base extra)
  = if has_key k extra then lookup_prop k extra else lookup_prop k base.
Proof.
  unfold spread. induction extra as [|[k1 v1] extra IH]; intros base k Hnd; [reflexivity|].
  apply NoDup_cons in Hnd as [Hfresh Hnd]. cbn [fold_left].
  rewrite IH by exact Hnd. unfold has_key. cbn [existsb lookup_prop].
  destruct (str_eqb k1 k) eqn:E.
  - apply str_eqb_eq in E. subst k1. cbn [orb].
    assert (Hk : has_key k extra = false).
    { destruct (has_key k extra) eqn:Hk; [|reflexivity]. exfalso. apply Hfresh.
      unfold has_key in Hk. apply existsb_exists in Hk as ([k' v'] & Hin & Eq).
      apply str_eqb_eq in Eq. subst k'. apply list_elem_of_In.
      apply in_map_iff. exists (k, v'). split; [reflexivity | exact Hin]. }
    unfold has_key in Hk. rewrite Hk. apply lookup_assign_eq.
  - cbn [orb]. destruct (existsb _ extra); [reflexivity|].
    apply lookup_assign_ne. apply str_eqb_neq in E. congruence.
Qed.

Lemma own_props_from_spec o : forall seen,
  NoDup (map fst (own_props_from seen o))
  /\ (forall k, k ∈ map fst (own_props_from seen o) -> k ∉ seen)
  /\ (forall k, k ∉ seen ->
        has_key k (own_props_from seen o) = has_key k o
        /\ lookup_prop k (own_props_from seen o) = lookup_prop k o).
Proof.
  induction o as [|[k0 v0] o IH]; intros seen.
  - split; [constructor|]. split; [intros k H; inversion H | intros; split; reflexivity].
  - cbn [own_props_from].
    destruct (existsb (str_eqb k0) seen) eqn:Hseen.
    + destruct (IH seen) as (Hnd & Hout & Hsame).
      split; [exact Hnd|]. split; [exact Hout|].
      intros k Hk. destruct (Hsame k Hk) as [H1 H2].
      assert (Hne : str_eqb k0 k = false).
      { apply str_eqb_neq. intros ->. apply Hk.
        apply existsb_exists in Hseen as (x & Hx & E). apply str_eqb_eq in E.
        subst. apply list_elem_of_In, Hx. }
      unfold has_key in *. cbn [existsb lookup_prop]. rewrite Hne. split; assumption.
    + destruct (IH (k0 :: seen)) as (Hnd & Hout & Hsame).
      assert (Hk0 : k0 ∉ seen).
      { intros Hin. apply not_true_iff_false in Hseen. apply Hseen.
        apply existsb_exists. exists k0. split; [apply list_elem_of_In, Hin | apply str_eqb_refl]. }
      split.
      { cbn [map fst]. apply NoDup_cons. split; [|exact Hnd].
        intros Hin. apply (Hout _ Hin). left. }
      split.
      { cbn [map fst]. intros k Hk. apply elem_of_cons in Hk as [->|Hk]; [exact Hk0|].
        intros Hin. apply (Hout _ Hk). right. exact Hin. }
      intros k Hk. unfold has_key. cbn [existsb lookup_prop].
      destruct (str_eqb k0 k) eqn:E; [split; reflexivity|].
      apply (Hsame k). intros Hin. apply elem_of_cons in Hin as [->|Hin]; [|contradiction].
      rewrite str_eqb_refl in E. discriminate.
Qed.

Lemma own_props_NoDup o : NoDup (map fst (own_props o)).
Proof. apply own_props_from_spec. Qed.

Lemma own_props_lookup o k :
  has_key k (own_props o) = has_key k o /\ lookup_prop k (own_props o) = lookup_prop k o.
Proof. apply own_props_from_spec. intros H. inversion H. Qed.

(** [{ ...o }] reads as [o]. *)
Lemma lookup_copy o k : lookup_prop k (spread [] (own_props o)) = lookup_prop k o.
Proof.
  rewrite lookup_spread by apply own_props_NoDup.
  destruct (own_props_lookup o k) as [Hk Hl]. rewrite Hk, Hl.
  destruct (has_key k o) eqn:E; [reflexivity|].
  rewrite (lookup_prop_absent _ _ E). reflexivity.
Qed.

(** ** The logger *)

Lemma indexOf_bounds x l : (-1 <= indexOf x l < Z.of_nat (length l))%Z.
Proof.
  induction l as [|y l IH]; simpl; [lia|].
  destruct (str_eqb y x); [lia|].
  destruct (Z.ltb_spec (indexOf x l) 0); lia.
Qed.

Lemma indexOf_absent x l : x ∉ l -> indexOf x l = (-1)%Z.
Proof.
  induction l as [|y l IH]; intros H; [reflexivity|]. simpl.
  destruct (str_eqb y x) eqn:E.
  - apply str_eqb_eq in E. subst. exfalso. apply H. left.
  - rewrite IH; [reflexivity|]. intros Hin. apply H. right. exact Hin.
Qed.

Lemma levelIdx_bounds toLowerCase env : (0 <= levelIdx toLowerCase env <= 4)%Z.
Proof.
  unfold levelIdx. pose proof (indexOf_bounds (envLevel toLowerCase env) levels) as H.
  change (Z.of_nat (length levels)) with 5%Z in H. lia.
Qed.

Lemma logAt_written th ts idx level msg meta :
  is_Some (logAt th ts idx level msg meta) <-> (idx <= th)%Z.
Proof.
  unfold logAt. destruct (Z.gtb_spec idx th) as [Hgt|Hle]; split; intros H;
    try lia; eauto.
  destruct H as [? H]. discriminate H.
Qed.

(** X5.  The threshold of the logger lies between 0 and 4 whatever the
    settings; an entry is written exactly when its level index does not
    exceed the threshold; hence [logger.error] writes under every setting,
    and whenever an entry of some level is written, so is every entry of a
    more severe level. *)
Theorem logger_threshold
    (toLowerCase : jsstring -> jsstring) (env : log_environment)
    (ts : jsstring) (idx : Z) (level msg : jsstring) (meta : jsval) :
  let th := levelIdx toLowerCase env in
  (0 <= th <= 4)%Z
  /\ (is_Some (logAt th ts idx level msg meta) <-> (idx <= th)%Z)
  /\ is_Some (logger_error th ts msg meta)
  /\ (forall idx' level' msg' meta',
        (idx' <= idx)%Z ->
        is_Some (logAt th ts idx level msg meta) ->
        is_Some (logAt th ts idx' level' msg' meta')).
Proof.
  intros th. pose proof (levelIdx_bounds toLowerCase env) as Hb. fold th in Hb.
  split; [exact Hb|]. split; [apply logAt_written|].
  split; [apply logAt_written; lia|].
  intros idx' level' msg' meta' Hle H.
  apply logAt_written. apply logAt_written in H. lia.
Qed.

(** X6.  Choosing the level.  A name that is none of the five, after
    lower-casing, gives the threshold of [error], not the default: [warn],
    [info], [http] and [debug] then write nothing.  The [i]-th name gives
    threshold [i].  With neither variable set the threshold is that of
    [info] (provided lower-casing leaves ["info"] alone): [warn] writes,
    [http] does not. *)
Theorem logger_level_selection
    (toLowerCase : jsstring -> jsstring) (env : log_environment) (ts msg : jsstring)
    (meta : jsval) :
  (envLevel toLowerCase env ∉ levels ->
   levelIdx toLowerCase env = 0%Z
   /\ logger_warn (levelIdx toLowerCase env) ts msg meta = None
   /\ logger_info (levelIdx toLowerCase env) ts msg meta = None
   /\ logger_http (levelIdx toLowerCase env) ts msg meta = None
   /\ logger_debug (levelIdx toLowerCase env) ts msg meta = None)
  /\ (forall i, levels !! i = Some (envLevel toLowerCase env) ->
                levelIdx toLowerCase env = Z.of_nat i)
  /\ (unset (LOG_LEVEL env) = true -> unset (REACT_APP_LOG_LEVEL env) = true ->
      toLowerCase (js "info") = js "info" ->
      levelIdx toLowerCase env = 2%Z
      /\ is_Some (logger_warn (levelIdx toLowerCase env) ts msg meta)
      /\ logger_http (levelIdx toLowerCase env) ts msg meta = None).
Proof.
  split; [|split].
  - intros H. unfold levelIdx. rewrite (indexOf_absent _ _ H).
    repeat split.
  - intros i Hi. unfold levelIdx.
    set (name := envLevel toLowerCase env) in *. clearbody name.
    do 5 (destruct i as [|i]; [injection Hi as <-; vm_compute; reflexivity|]).
    discriminate Hi.
  - intros H1 H2 Hinfo.
    assert (E : envLevel toLowerCase env = js "info").
    { unfold envLevel.
      destruct env as [[[|c s]|] [[|c' s']|]]; try discriminate H1; try discriminate H2;
        exact Hinfo. }
    unfold levelIdx. rewrite E. split; [reflexivity|]. split; [|reflexivity].
    apply logAt_written. vm_compute. discriminate.
Qed.

(** X7.  What a written entry holds.  With an object as [meta], every
    property of [meta] is in the entry, also under the names [ts], [level]
    and [msg], which it then replaces; the other properties of the entry
    are the three fixed fields.  A [meta] that is no object (a string, a
    number, a boolean, [undefined]) or that is [null] leaves the entry with
    exactly the three fixed fields. *)
Theorem log_entry_fields
    (th : Z) (ts : jsstring) (idx : Z) (level msg : jsstring) (meta : jsval)
    (entry : jsobj) :
  logAt th ts idx level msg meta = Some entry ->
  (forall props k,
     meta = JObj props ->
     lookup_prop k entry
     = if has_key k props then lookup_prop k props
       else lookup_prop k (entry_base ts level msg))
  /\ (is_object meta = false \/ meta = JNull -> entry = entry_base ts level msg).
Proof.
  unfold logAt. destruct (idx >? th)%Z; [discriminate|]. intros [= <-]. split.
  - intros props k ->. cbn [truthy is_object andb enumerable].
    rewrite lookup_spread by apply own_props_NoDup.
    destruct (own_props_lookup props k) as [Hk Hl]. rewrite Hk, Hl. reflexivity.
  - intros [H | ->]; [|reflexivity]. rewrite H, andb_false_r. reflexivity.
Qed.

Lemma log_entry_fields_witness :
  exists entry,
    logger_error 0 (js "2024-01-01T00:00:00.000Z") (js "Unhandled error")
      (JObj [(js "msg", JStr (js "forged"))]) = Some entry
    /\ lookup_prop (js "msg") entry = JStr (js "forged")
    /\ lookup_prop (js "level") entry = JStr (js "error").
Proof.
  eexists. split; [reflexivity|].
  pose proof (proj1 (log_entry_fields 0 (js "2024-01-01T00:00:00.000Z") 0 (js "error")
                       (js "Unhandled error") (JObj [(js "msg", JStr (js "forged"))])
                       _ eq_refl)) as H.
  split.
  - rewrite (H _ (js "msg") eq_refl). reflexivity.
  - rewrite (H _ (js "level") eq_refl). reflexivity.
Defined.




(** ** More on the route *)

Lemma str_or_nonempty o d : d <> [] -> str_or o d <> [].
Proof. intros H. destruct o as [[|c s]|]; simpl; [exact H | discriminate | exact H]. Qed.

(** X9.  The key handed to the limiter is never the empty string, whatever
    the request and the proxy setting. *)
Theorem client_key_nonempty (trust : bool) (req : request) :
  client_key trust req <> [].
Proof.
  unfold client_key. repeat apply str_or_nonempty. discriminate.
Qed.


Lemma or_else_chain a b :
  or_else (or_else a b) JNull
  = (if truthy a then a else if truthy b then b else JNull)
  /\ (or_else (or_else a b) JNull = JNull \/ truthy (or_else (or_else a b) JNull) = true).
Proof.
  unfold or_else. destruct (truthy a) eqn:Ha.
  - rewrite Ha. split; [reflexivity | right; first [exact Ha | reflexivity]].
  - destruct (truthy b) eqn:Hb.
    + rewrite Hb. split; [reflexivity | right; first [exact Hb | reflexivity]].
    + split; [reflexivity | left; reflexivity].
Qed.

(** X11.  The [id] of a 202 response is [null] or a truthy value, never
    [undefined], the empty string, zero or [false]: when the sink resolves
    with [r] it is [r.messageId] if that is truthy, else [r.id] if that is
    truthy, else [null]. *)
Theorem accepted_id_is_truthy_or_null
    (valid_email : jsstring -> bool) (env : environment)
    (sendContactEmail : jsobj -> request -> sink_outcome)
    (l : limiter) (now : Z) (req : request) (id : jsval) :
  response_of (post_contact env valid_email sendContactEmail l now req) = accepted id ->
  (id = JNull \/ truthy id = true)
  /\ (forall payload r,
        In (SinkCall payload) (events_of (post_contact env valid_email sendContactEmail l now req)) ->
        sendContactEmail payload req = Resolved r ->
        id = if truthy (get_opt r (js "messageId")) then get_opt r (js "messageId")
             else if truthy (get_opt r (js "id")) then get_opt r (js "id")
             else JNull).
Proof.
  unfold post_contact, rateLimiterMiddleware, events_of, response_of.
  destruct (consume l _ now) as [[|] l']; cbn [fst snd]; [|discriminate].
  unfold contact_handler.
  destruct (honeypot_triggered _ _).
  { cbn [fst snd]. intros [= <-]. split; [left; reflexivity|].
    intros ? ? [H|[]]. discriminate H. }
  destruct (validation_step valid_email (req_body req)) as [bad|v] eqn:Ev.
  { unfold validation_step in Ev.
    destruct (validate valid_email contactSchema (req_body req)) as [[|d ds] v'];
      [discriminate Ev|]. injection Ev as <-. cbn [fst snd]. discriminate. }
  destruct (sendContactEmail (sanitizeInput v) req) as [r|e] eqn:E; cbn [fst snd];
    [|discriminate].
  intros [= <-]. split; [apply or_else_chain|].
  intros payload r' [H|[]] Hr. injection H as <-. rewrite E in Hr. injection Hr as <-.
  apply or_else_chain.
Qed.

Lemma accepted_id_is_truthy_or_null_witness :
  JNull = JNull \/ truthy JNull = true.
Proof.
  apply (accepted_id_is_truthy_or_null sample_grammar no_env simulate_sink
           (new_limiter no_env) 0 jane JNull).
  vm_compute. reflexivity.
Defined.

(** ** More on the sanitizer *)

Lemma replace_crlf_space_length s : length (replace_crlf_space s) = length s.
Proof. unfold replace_crlf_space. apply length_map. Qed.

Lemma replace_crlf_space_blank s : blank (replace_crlf_space s) <-> blank s.
Proof.
  unfold blank, replace_crlf_space. rewrite Forall_fmap. apply Forall_iff. intros c. cbn.
  destruct (is_crlf c) eqn:E; [|reflexivity].
  split; intros _; [|reflexivity].
  unfold is_crlf, CR, LF in E. apply orb_true_iff in E as [E|E];
    apply N.eqb_eq in E; subst; reflexivity.
Qed.

Lemma remove_cr_length s : (length (remove_cr s) <= length s)%nat.
Proof. unfold remove_cr. apply length_filter. Qed.

Lemma trimSafe_length s : (length (trimSafe (JStr s)) <= length s)%nat.
Proof.
  unfold trimSafe. cbn [nullish_or ToString].
  pose proof (trim_length (replace_crlf_space s)).
  rewrite replace_crlf_space_length in *. lia.
Qed.

(** X12.  Cleaning a text never lengthens it, and gives the empty string
    exactly when the text is blank: [trimSafe] of a string has at most the
    length of the string, and is empty if and only if the string holds
    white space only (carriage returns and line feeds included). *)
Theorem trimSafe_shrinks (s : jsstring) :
  (length (trimSafe (JStr s)) <= length s)%nat
  /\ (trimSafe (JStr s) = [] <-> blank s).
Proof.
  split; [apply trimSafe_length|].
  unfold trimSafe. cbn [nullish_or ToString].
  rewrite trim_blank. apply replace_crlf_space_blank.
Qed.

(** X13.  What reaches the sink is within the documented bounds from above:
    the payload of every sink call has exactly the fields [name], [email]
    and [message]; its name has at most 120 code units and its message at
    most 5000; and its email is the cleaned form of an address the grammar
    accepted.  (The address grammar is any that accepts only strings with
    an at sign.) *)
Theorem sink_payload_bounds
    (valid_email : jsstring -> bool) (env : environment)
    (sendContactEmail : jsobj -> request -> sink_outcome)
    (l : limiter) (now : Z) (req : request) (payload : jsobj) :
  (forall s, valid_email s = true -> 64%N ∈ s) ->
  In (SinkCall payload) (events_of (post_contact env valid_email sendContactEmail l now req)) ->
  exists n e m address,
    payload = [(js "name", JStr n); (js "email", JStr e); (js "message", JStr m)]
    /\ (length n <= 120)%nat
    /\ (length m <= 5000)%nat
    /\ valid_email address = true /\ e = trimSafe (JStr address).
Proof.
  intros Hg Hin.
  rewrite post_contact_cases in Hin. unfold events_of in Hin. cbn [fst snd] in Hin.
  destruct (passes_limiter env l now req); [|destruct Hin].
  destruct (decide (honeypot_filled env (req_body req))) as [Hh|Hh].
  { rewrite handler_honeypot in Hin by exact Hh. cbn [snd In] in Hin.
    destruct Hin as [H|[]]. discriminate H. }
  destruct (decide (well_formed valid_email (req_body req))) as [Hw|Hw].
  2:{ rewrite (handler_invalid valid_email Hg) in Hin by assumption. destruct Hin. }
  rewrite (handler_valid valid_email Hg) in Hin by assumption. cbv zeta in Hin.
  assert (Hp : payload = sanitizeInput (req_body req)).
  { destruct (sendContactEmail _ req); cbn [snd In] in Hin; destruct Hin as [H|H];
      try (injection H as <-; reflexivity); try contradiction;
      destruct H as [H|[]]; discriminate H. }
  destruct Hw as (Hn & He & Hm).
  unfold name_ok, email_ok, message_ok, length_within, is_address in Hn, He, Hm.
  destruct (lookup_prop (js "name") (req_body req)) as [| | | |n| |] eqn:En; try discriminate Hn.
  destruct (lookup_prop (js "email") (req_body req)) as [| | | |e| |] eqn:Ee; try discriminate He.
  destruct (lookup_prop (js "message") (req_body req)) as [| | | |m| |] eqn:Em; try discriminate Hm.
  apply andb_true_iff in Hn as [_ Hn]. apply Nat.leb_le in Hn.
  apply andb_true_iff in Hm as [_ Hm]. apply Nat.leb_le in Hm.
  exists (trimSafe (JStr n)), (trimSafe (JStr e)), (trim (remove_cr m)), e.
  split; [subst payload; unfold sanitizeInput; rewrite En, Ee, Em; reflexivity|].
  split; [pose proof (trimSafe_length n); lia|].
  split; [|split; [exact He | reflexivity]].
  pose proof (trim_length (remove_cr m)). pose proof (remove_cr_length m). lia.
Qed.

Lemma sink_payload_bounds_witness :
  exists n e m address,
    sanitizeInput (req_body jane)
      = [(js "name", JStr n); (js "email", JStr e); (js "message", JStr m)]
    /\ (length n <= 120)%nat
    /\ (length m <= 5000)%nat
    /\ sample_grammar address = true /\ e = trimSafe (JStr address).
Proof.
  apply (sink_payload_bounds sample_grammar no_env simulate_sink (new_limiter no_env)
           0 jane (sanitizeInput (req_body jane)) sample_grammar_at).
  vm_compute. left. reflexivity.
Defined.

(** X14.  The handler reads nothing of a body but the honeypot field and the
    three fields of the schema: two requests whose bodies agree on these,
    and for which the sink behaves alike, get the same response and cause
    the same effects.  Unknown fields change nothing. *)
Theorem handler_ignores_unknown_fields
    (valid_email : jsstring -> bool) (env : environment)
    (sendContactEmail : jsobj -> request -> sink_outcome) (req1 req2 : request) :
  same_submission env (req_body req1) (req_body req2) ->
  (forall payload, sendContactEmail payload req1 = sendContactEmail payload req2) ->
  contact_handler env valid_email sendContactEmail req1
  = contact_handler env valid_email sendContactEmail req2.
Proof.
  intros Hsame Hsink. unfold contact_handler.
  assert (Hhp : lookup_prop (str_or (HONEYPOT_FIELD env) (js "website")) (req_body req1)
                = lookup_prop (str_or (HONEYPOT_FIELD env) (js "website")) (req_body req2))
    by (apply Hsame; left).
  assert (Hn : lookup_prop (js "name") (req_body req1) = lookup_prop (js "name") (req_body req2))
    by (apply Hsame; right; left).
  assert (He : lookup_prop (js "email") (req_body req1) = lookup_prop (js "email") (req_body req2))
    by (apply Hsame; right; right; left).
  assert (Hm : lookup_prop (js "message") (req_body req1)
               = lookup_prop (js "message") (req_body req2))
    by (apply Hsame; right; right; right; left).
  unfold honeypot_triggered. rewrite Hhp.
  destruct (is_defined _ && _); [reflexivity|].
  assert (Hd : fst (validate valid_email contactSchema (req_body req1))
               = fst (validate valid_email contactSchema (req_body req2))).
  { unfold validate, contactSchema. cbn [fst flat_map]. rewrite Hn, He, Hm. reflexivity. }
  assert (Hs : sanitizeInput (snd (validate valid_email contactSchema (req_body req1)))
               = sanitizeInput (snd (validate valid_email contactSchema (req_body req2)))).
  { rewrite !sanitizeInput_stripped. unfold sanitizeInput. rewrite Hn, He, Hm. reflexivity. }
  unfold validation_step.
  destruct (validate valid_email contactSchema (req_body req1)) as [d1 v1].
  destruct (validate valid_email contactSchema (req_body req2)) as [d2 v2].
  cbn [fst snd] in Hd, Hs. subst d2.
  destruct d1; [|reflexivity]. rewrite Hs, Hsink. reflexivity.
Qed.

Lemma handler_ignores_unknown_fields_witness :
  contact_handler no_env sample_grammar simulate_sink jane_with_extras
  = contact_handler no_env sample_grammar simulate_sink jane.
Proof.
  apply handler_ignores_unknown_fields.
  - intros k Hk. repeat (apply elem_of_cons in Hk as [->|Hk]; [vm_compute; reflexivity|]).
    inversion Hk.
  - reflexivity.
Defined.

(** ** The limiter and the route *)

Lemma serve_cons env valid_email sink l t r rest :
  serve env valid_email sink l ((t, r) :: rest)
  = (fst (post_contact env valid_email sink l t r)
       :: fst (serve env valid_email sink (snd (post_contact env valid_email sink l t r)) rest),
     snd (serve env valid_email sink (snd (post_contact env valid_email sink l t r)) rest)).
Proof.
  cbn [serve]. destruct (post_contact env valid_email sink l t r) as [out l'].
  cbn [fst snd]. destruct (serve env valid_email sink l' rest). reflexivity.
Qed.

Lemma handler_not_rate_limited env valid_email sink req :
  fst (contact_handler env valid_email sink req) <> rate_limited.
Proof.
  unfold contact_handler. destruct (honeypot_triggered _ _); [discriminate|].
  unfold validation_step.
  destruct (validate valid_email contactSchema (req_body req)) as [[|d ds] v];
    [|discriminate].
  destruct (sink (sanitizeInput v) req); discriminate.
Qed.

(** The outcome of one request in terms of the counter its key reaches. *)
Lemma post_contact_counted env valid_email sink l t r :
  let rec := incrby l (client_key (trustProxy env) r) t in
  (fst (fst (post_contact env valid_email sink l t r)) = rate_limited
   <-> (points l < value rec)%Z)
  /\ (fst (fst (post_contact env valid_email sink l t r)) = rate_limited ->
      snd (fst (post_contact env valid_email sink l t r)) = [])
  /\ snd (post_contact env valid_email sink l t r)
     = snd (consume l (client_key (trustProxy env) r) t).
Proof.
  intros rec. rewrite post_contact_cases. unfold passes_limiter, consume.
  cbn [fst snd]. fold rec.
  destruct (Z.leb_spec (value rec) (points l)) as [Hle|Hgt].
  - split; [|split; [|reflexivity]].
    + split; [|lia]. intros H. exfalso. exact (handler_not_rate_limited _ _ _ _ H).
    + intros H. exfalso. exact (handler_not_rate_limited _ _ _ _ H).
  - split; [|split; reflexivity]. split; [intros _; exact Hgt | reflexivity].
Qed.




Lemma serve_distinct_keys env valid_email sink reqs : forall l,
  (1 <= points l)%Z ->
  NoDup (map (fun '(_, r) => client_key (trustProxy env) r) reqs) ->
  Forall (fun '(_, r) => storage l !! client_key (trustProxy env) r = None) reqs ->
  Forall (fun out => fst out <> rate_limited) (fst (serve env valid_email sink l reqs)).
Proof.
  induction reqs as [|[t r] reqs IH]; intros l Hp Hnd Hnew; [constructor|].
  rewrite serve_cons. cbn [fst map] in *.
  apply NoDup_cons in Hnd as [Hfresh Hnd]. apply Forall_cons in Hnew as [Hr Hnew].
  destruct (post_contact_counted env valid_email sink l t r) as (Hrl & _ & Hnext).
  constructor.
  - rewrite Hrl. rewrite incrby_fresh; [cbn [value]; lia|].
    unfold no_live_window. rewrite Hr. exact I.
  - rewrite Hnext. apply IH; [exact Hp | exact Hnd |].
    rewrite Forall_forall in Hnew |- *. intros [t' r'] Hin.
    rewrite consume_other; [exact (Hnew _ Hin)|].
    intros E. apply Hfresh. rewrite E.
    apply list_elem_of_fmap. exists (t', r'). split; [reflexivity | exact Hin].
Qed.

(** X16.  With a trusted proxy (the default) the client is whoever the
    forwarding header names last: requests whose headers end in pairwise
    distinct addresses are counted under distinct keys, so that, from a new
    limiter of capacity one or more, none of them is answered 429, however
    many they are and whatever connection they come from. *)
Theorem distinct_forwarded_addresses_are_never_limited
    (valid_email : jsstring -> bool) (env : environment)
    (sendContactEmail : jsobj -> request -> sink_outcome)
    (reqs : list (Z * request)) (hops : list jsstring) :
  trustProxy env = true ->
  (1 <= points (new_limiter env))%Z ->
  Forall2 (fun '(_, r) hop =>
             last (forwarded_hops (str_or (x_forwarded_for r) [])) = Some hop)
          reqs hops ->
  NoDup hops ->
  Forall (fun out => fst out <> rate_limited)
         (fst (serve env valid_email sendContactEmail (new_limiter env) reqs)).
Proof.
  intros Ht Hp Hhops Hnd.
  assert (Hkeys : map (fun '(_, r) => client_key (trustProxy env) r) reqs = hops).
  { clear Hnd. induction Hhops as [|[t r] hop reqs hops Hh _ IH]; [reflexivity|].
    cbn [map]. f_equal; [|exact IH].
    unfold client_key, express_ip. rewrite Ht, Hh.
    pose proof (forwarded_hop_nonempty _ _ Hh) as Hne.
    destruct hop; [contradiction | reflexivity]. }
  apply serve_distinct_keys; [exact Hp | rewrite Hkeys; exact Hnd |].
  apply Forall_forall. intros [t r] _. apply lookup_empty.
Qed.

Lemma distinct_forwarded_addresses_are_never_limited_witness :
  Forall (fun out => fst out <> rate_limited)
         (fst (serve no_env sample_grammar simulate_sink (new_limiter no_env) spoofing_run)).
Proof.
  apply (distinct_forwarded_addresses_are_never_limited sample_grammar no_env
           simulate_sink spoofing_run
           [js "10.0.0.1"; js "10.0.0.2"; js "10.0.0.3"; js "10.0.0.4";
            js "10.0.0.5"; js "10.0.0.6"; js "10.0.0.7"]).
  - reflexivity.
  - vm_compute. discriminate.
  - repeat (constructor; [vm_compute; reflexivity|]). constructor.
  - apply NoDup_ListNoDup. repeat constructor;
      vm_compute; intros H; repeat (destruct H as [H|H]; [discriminate H|]); exact H.
Defined.

(** ** More on the contact client *)

Lemma rstrip_split p s :
  exists tail, s = rstrip p s ++ tail /\ Forall (fun c => p c = true) tail.
Proof.
  induction s as [|c s (tail & E & H)]; simpl.
  - exists []. split; [reflexivity | constructor].
  - destruct (rstrip p s) as [|b r] eqn:Er.
    + destruct (p c) eqn:Hc.
      * exists (c :: s). split; [reflexivity|]. constructor; [exact Hc|].
        simpl in E. subst. exact H.
      * exists tail. split; [simpl; f_equal; exact E | exact H].
    + exists tail. split; [simpl; f_equal; exact E | exact H].
Qed.

Lemma sendContactMessage_request c base fetch input :
  snd (sendContactMessage (Some (c :: base)) fetch input [])
  = [contact_call (rstrip is_slash (c :: base) ++ js "/api/contact/") input].
Proof.
  unfold sendContactMessage, try_catch, bind, await_fetch, contact_call. cbn [app].
  destruct (fetch _) as [resp|err]; [|reflexivity].
  destruct (negb (resp_ok resp)); reflexivity.
Qed.

(** X17.  The address of the request.  Trailing slashes of the configured
    base address are immaterial: adding any number of them changes neither
    the request nor the result.  The one request made goes to the base
    address without its trailing slashes, followed by [/api/contact/]. *)
Theorem contact_url_ignores_trailing_slashes
    (base : jsstring) (n : nat)
    (fetch : fetch_call -> completion fetch_response) (input : jsobj) :
  base <> [] ->
  sendContactMessage (Some (base ++ replicate n 47%N)) fetch input
  = sendContactMessage (Some base) fetch input
  /\ exists stem tail,
       base = stem ++ tail
       /\ Forall (fun c => c = 47%N) tail
       /\ last stem <> Some 47%N
       /\ snd (sendContactMessage (Some base) fetch input [])
          = [contact_call (stem ++ js "/api/contact/") input].
Proof.
  intros Hne. destruct base as [|c base]; [contradiction|]. split.
  - unfold sendContactMessage. cbn [app].
    change (c :: base ++ replicate n 47%N) with ((c :: base) ++ replicate n 47%N).
    rewrite rstrip_app_blank; [reflexivity|].
    apply Forall_forall. intros x Hx. apply elem_of_replicate in Hx as [-> _]. reflexivity.
  - destruct (rstrip_split is_slash (c :: base)) as (tail & E & Htail).
    exists (rstrip is_slash (c :: base)), tail.
    split; [exact E|]. split.
    + rewrite Forall_forall in Htail |- *. intros x Hx.
      specialize (Htail x Hx). unfold is_slash in Htail. apply N.eqb_eq in Htail. exact Htail.
    + split; [|apply sendContactMessage_request].
      intros H. apply rstrip_last in H. discriminate H.
Qed.

Lemma contact_url_ignores_trailing_slashes_witness :
  sendContactMessage (Some (js "https://api.example.org" ++ replicate 2 47%N))
    network_down [] []
  = sendContactMessage (Some (js "https://api.example.org")) network_down [] [].
Proof.
  rewrite (proj1 (contact_url_ignores_trailing_slashes (js "https://api.example.org") 2
                    network_down [] ltac:(vm_compute; discriminate))).
  reflexivity.
Defined.

(** X18.  Only four properties of the input matter: two inputs that agree
    on [name], [email], [subject] and [message] cause the same request and
    give the same result, whatever else they hold. *)
Theorem contact_client_reads_four_fields
    (base : option jsstring) (fetch : fetch_call -> completion fetch_response)
    (input1 input2 : jsobj) :
  (forall k, k ∈ [js "name"; js "email"; js "subject"; js "message"] ->
             lookup_prop k input1 = lookup_prop k input2) ->
  sendContactMessage base fetch input1 = sendContactMessage base fetch input2.
Proof.
  intros H. unfold sendContactMessage.
  rewrite (H (js "name")), (H (js "email")), (H (js "subject")), (H (js "message"));
    [reflexivity | | | |]; set_solver.
Qed.

Lemma contact_client_reads_four_fields_witness :
  sendContactMessage (Some (js "https://api.example.org")) network_down
    ((js "token", JStr (js "secret")) :: submission (js "Jane") (js "j@x.org") (js "Hi"))
  = sendContactMessage (Some (js "https://api.example.org")) network_down
      (submission (js "Jane") (js "j@x.org") (js "Hi")).
Proof.
  apply contact_client_reads_four_fields.
  intros k Hk. repeat (apply elem_of_cons in Hk as [->|Hk]; [vm_compute; reflexivity|]).
  inversion Hk.
Defined.



(** ** The contact form *)

Lemma lookup_update s k v k' :
  lookup_prop k' (assign (spread [] (own_props s)) k v)
  = if str_eqb k k' then v else lookup_prop k' s.
Proof.
  destruct (str_eqb k k') eqn:E.
  - apply str_eqb_eq in E. subst. apply lookup_assign_eq.
  - rewrite lookup_assign_ne; [apply lookup_copy|].
    apply str_eqb_neq in E. congruence.
Qed.

(** X20.  Typing in the form and starting a submission.  A change sets the
    named field to the typed value and leaves every other field of the
    state as it was.  The first update of a submission sets [status] to
    ["sending"] and [error] to the empty string and leaves [name], [email]
    and [message] as typed. *)
Theorem contact_state_updates (s : jsobj) (name value k : jsstring) :
  lookup_prop k (handleContactChange name value s)
    = (if str_eqb name k then JStr value else lookup_prop k s)
  /\ lookup_prop (js "status") (submit_begin s) = JStr (js "sending")
  /\ lookup_prop (js "error") (submit_begin s) = JStr []
  /\ (k ∈ [js "name"; js "email"; js "message"] ->
      lookup_prop k (submit_begin s) = lookup_prop k s).
Proof.
  unfold handleContactChange, submit_begin. split; [apply lookup_update|].
  split; [rewrite lookup_assign_ne by (vm_compute; discriminate); apply lookup_assign_eq|].
  split; [apply lookup_assign_eq|].
  intros Hk.
  repeat (apply elem_of_cons in Hk as [->|Hk];
          [rewrite !lookup_assign_ne by (vm_compute; discriminate); apply lookup_copy|]).
  inversion Hk.
Qed.

Lemma enabled_iff env :
  enabled env = true
  <-> unset (REACT_APP_EMAILJS_PUBLIC_KEY env) = false
      /\ unset (REACT_APP_EMAILJS_SERVICE_ID env) = false
      /\ unset (REACT_APP_EMAILJS_TEMPLATE_ID env) = false.
Proof.
  unfold enabled, unset. rewrite !andb_true_iff, !negb_false_iff. tauto.
Qed.

(** X21.  Without a complete configuration the form only pretends.  Sending
    is enabled exactly when the three settings of EmailJS are all set and
    not empty.  When it is not, a submission makes no network request at
    all and ends, by its timer, with [status] at ["success"], every other
    field of the state, the typed ones included, being left as it is. *)
Theorem unconfigured_form_simulates
    (env : emailjs_environment) (fetch : fetch_call -> completion fetch_response)
    (captured : jsobj) :
  (enabled env = true
   <-> unset (REACT_APP_EMAILJS_PUBLIC_KEY env) = false
       /\ unset (REACT_APP_EMAILJS_SERVICE_ID env) = false
       /\ unset (REACT_APP_EMAILJS_TEMPLATE_ID env) = false)
  /\ (enabled env = false ->
      exists update,
        handleContactSubmit env fetch captured [] = (Normal update, [])
        /\ forall s k,
             lookup_prop k (update s)
             = if str_eqb (js "status") k then JStr (js "success") else lookup_prop k s).
Proof.
  split; [apply enabled_iff|].
  intros H. exists simulate_done. unfold handleContactSubmit. rewrite H.
  split; [reflexivity|]. intros s k. apply lookup_update.
Qed.





(** ** The honeypot test *)

